(** * The send queue, session failover and reply correlator of the
      WhatsApp bridge, embedded from [src/main.js] and its variants.

    The program is a Node.js service: one event loop, promises and timers.
    Every model below is a state machine whose events are the macro-tasks
    the runtime delivers (an HTTP request, a timer callback, the settling
    of a provider promise, an event emitted by the provider's client), and
    whose step function runs the JavaScript handler of that event to
    completion, micro-tasks included, in the order the source gives them. *)

From stdpp Require Import gmap strings list fin_maps pretty.

Open Scope string_scope.
Open Scope list_scope.
Open Scope stdpp_scope.
Open Scope nat_scope.

(** ** Errors

    A JavaScript [Error] carries a message; the handlers of the program
    never look at anything else. *)

Record error := Error { message : string }.

#[global] Instance error_eq_dec : EqDecision error.
Proof. solve_decision. Defined.

(** The outcome a promise settles with. *)
Inductive outcome (V : Type) :=
| Success (v : V)
| Failure (e : error).
Arguments Success {V} v.
Arguments Failure {V} e.

(** ** [class TaskQueue] (src/main.js, lines 41-97) *)

Module TaskQueue.

(** [new Error(`Job timed out after ${ms}ms`)]; [ms] is a whole number of
    milliseconds, printed in decimal by the template literal. *)
Definition timeout_error (ms : N) : error :=
  Error ("Job timed out after " +:+ pretty ms +:+ "ms").

(** [const job = { fn, resolve, reject, timeoutMs, timer: null }].  The
    three closures of a job are named by the position of its submission:
    [fn j] stands for the action, and for the [resolve]/[reject] pair of
    the promise [enqueue] handed back for that submission. *)
Record job := Job { fn : nat; timeoutMs : N }.

#[global] Instance job_eq_dec : EqDecision job.
Proof. solve_decision. Defined.

(** The closure of one call of [_runWithTimeout]: the [finished] flag, the
    handle [timer] (true while the timeout is still armed), and the job of
    the loop iteration that awaits the race. *)
Record run := Run { owner : job; finished : bool; timer : bool }.

Record state := State {
  queue : list job;          (* this.queue *)
  processing : bool;         (* this.processing *)
  runs : gmap nat run;       (* closures of _runWithTimeout, by job *)
  submitted : nat            (* number of calls of enqueue so far *)
}.

Definition init : state := State [] false ∅ 0.

Section Queue.
Context {V : Type}.

(** What the queue does that its environment can see: it calls [fn()]
    ([Started]) and it calls [job.resolve]/[job.reject] ([Delivered]). *)
Inductive output :=
| Started (j : job)
| Delivered (j : job) (o : outcome V).

Inductive event :=
| Enqueue (opts : option N)                 (* enqueue(fn, { timeoutMs }) *)
| ActionSettles (id : nat) (o : outcome V)  (* the promise of fn() settles *)
| TimerFires (id : nat).                    (* the setTimeout callback runs *)

(** [_runWithTimeout(fn, ms)] up to the return of the race promise: the
    timer is armed and [fn()] is called.  A job is an [async] function, as
    the source asks, so the call itself never throws: what the action does
    comes back later, as the settling of its promise. *)
Definition _runWithTimeout (j : job) (s : state) : state * list output :=
  (State (queue s) (processing s) (<[fn j := Run j false true]> (runs s))
         (submitted s),
   [Started j]).

(** One turn of [while (this.queue.length)], from the test of the loop to
    its [await]; when the queue is empty, the statement after the loop. *)
Definition loop (s : state) : state * list output :=
  match queue s with
  | [] => (State [] false (runs s) (submitted s), [])
  | j :: rest =>
      _runWithTimeout j (State rest (processing s) (runs s) (submitted s))
  end.

Definition _process (s : state) : state * list output :=
  if processing s then (s, [])
  else loop (State (queue s) true (runs s) (submitted s)).

Definition enqueue (opts : option N) (s : state) : state * list output :=
  let j := Job (submitted s) (default 30000%N opts) in
  _process (State (queue s ++ [j]) (processing s) (runs s)
                  (S (submitted s))).

(** The race promise of run [r] settles with [o]: [_process] resumes after
    its [await], hands [o] to the job and goes round the loop. *)
Definition resume (r : run) (o : outcome V) (s : state)
  : state * list output :=
  let '(s', outs) := loop s in (s', Delivered (owner r) o :: outs).

Definition set_run (id : nat) (r : run) (s : state) : state :=
  State (queue s) (processing s) (<[id := r]> (runs s)) (submitted s).

(** The [.then]/[.catch] callbacks of [_runWithTimeout]. *)
Definition action_settles (id : nat) (o : outcome V) (s : state)
  : state * list output :=
  match runs s !! id with
  | Some r =>
      if finished r then (s, [])
      else resume r o (set_run id (Run (owner r) true false) s)
  | None => (s, [])
  end.

(** The callback handed to [setTimeout]; the runtime only runs it while
    the handle is armed. *)
Definition timer_fires (id : nat) (s : state) : state * list output :=
  match runs s !! id with
  | Some r =>
      if timer r then
        if finished r then (set_run id (Run (owner r) true false) s, [])
        else resume r (Failure (timeout_error (timeoutMs (owner r))))
                    (set_run id (Run (owner r) true false) s)
      else (s, [])
  | None => (s, [])
  end.

Definition step (ev : event) (s : state) : state * list output :=
  match ev with
  | Enqueue opts => enqueue opts s
  | ActionSettles id o => action_settles id o s
  | TimerFires id => timer_fires id s
  end.

(** Running a sequence of events, outputs in order. *)
Fixpoint exec (evs : list event) (s : state) : state * list output :=
  match evs with
  | [] => (s, [])
  | ev :: evs' =>
      let '(s1, o1) := step ev s in
      let '(s2, o2) := exec evs' s1 in
      (s2, o1 ++ o2)
  end.

(** *** Reading a trace *)

Definition started (outs : list output) : list job :=
  omap (λ x, match x with Started j => Some j | _ => None end) outs.

Definition deliveries (outs : list output) : list (job * outcome V) :=
  omap (λ x, match x with Delivered j o => Some (j, o) | _ => None end) outs.

(** No job starts while another is unsettled, and only the running job is
    delivered to. *)
Fixpoint one_at_a_time (running : option job) (outs : list output) : bool :=
  match outs with
  | [] => true
  | Started j :: rest =>
      match running with
      | None => one_at_a_time (Some j) rest
      | Some _ => false
      end
  | Delivered j _ :: rest =>
      match running with
      | Some i => bool_decide (i = j) && one_at_a_time None rest
      | None => false
      end
  end.

(** The job whose race is pending at the end of a trace. *)
Fixpoint in_flight (running : option job) (outs : list output) : option job :=
  match outs with
  | [] => running
  | Started j :: rest => in_flight (Some j) rest
  | Delivered _ _ :: rest => in_flight None rest
  end.

(** The jobs the [Enqueue] events of a trace create, in order. *)
Definition requests (evs : list event) : list (option N) :=
  omap (λ ev, match ev with Enqueue o => Some o | _ => None end) evs.

Definition jobs_of (evs : list event) : list job :=
  imap (λ i o, Job i (default 30000%N o)) (requests evs).

(** How the race of a job ends. *)
Inductive way :=
| ByAction (o : outcome V)
| ByTimer.

Definition settle_event (j : job) (w : way) : event :=
  match w with
  | ByAction o => ActionSettles (fn j) o
  | ByTimer => TimerFires (fn j)
  end.

Definition result (j : job) (w : way) : outcome V :=
  match w with
  | ByAction o => o
  | ByTimer => Failure (timeout_error (timeoutMs j))
  end.

Definition pending (s : state) (outs : list output) : list job :=
  option_list (in_flight None outs) ++ queue s.

(** *** The shape of the reachable states

    [done] lists the jobs delivered to so far with their outcomes, [cur] is
    the job whose race is pending, [all] the jobs submitted. *)

Definition run_of (ndone id : nat) (j : job) : run :=
  Run j (bool_decide (id < ndone)) (negb (bool_decide (id < ndone))).

Definition trace_of (done : list (job * outcome V)) (cur : option job)
  : list output :=
  flat_map (λ d, [Started d.1; Delivered d.1 d.2]) done
  ++ from_option (λ j, [Started j]) [] cur.

Definition numbered (all : list job) : Prop :=
  ∀ i j, all !! i = Some j → fn j = i.

(** The invariant of the loop. *)
Definition inv (all : list job) (done : list (job * outcome V))
    (cur : option job) (s : state) : Prop :=
  processing s = bool_decide (is_Some cur) ∧
  (cur = None → queue s = []) ∧
  done.*1 ++ option_list cur ++ queue s = all ∧
  numbered all ∧
  submitted s = length all ∧
  ∀ id, runs s !! id
        = run_of (length done) id <$> (done.*1 ++ option_list cur) !! id.

Definition new_jobs (n : nat) (evs : list event) : list job :=
  imap (λ i o, Job (n + i) (default 30000%N o)) (requests evs).

End Queue.

Arguments output : clear implicits.
Arguments event : clear implicits.
Arguments way : clear implicits.

End TaskQueue.

(** ** Session control: [createClient] and [failover]
       (src/main.js, lines 103-222) *)

Module Session.

(** The events of the provider's [Client] the program subscribes to. *)
Inductive signal :=
| Qr | LoadingScreen | Ready | AuthFailure | Disconnected | Message.

#[global] Instance signal_eq_dec : EqDecision signal.
Proof. solve_decision. Defined.

(** A [Client] object of the provider, as far as the program can tell:
    the identity it was built for, the handlers hooked on it, and which of
    its methods have been called.  [ready] records that the provider has
    emitted ['ready'] on it. *)
Record Client := MkClient {
  clientId : option string;    (* new LocalAuth({ clientId: sessionId }) *)
  on : list signal;            (* newClient.on(name, handler) *)
  once_ready : bool;           (* client.once('ready', ...) still pending *)
  initialize_called : bool;
  destroy_called : bool;
  ready : bool
}.

Record state := State {
  currentSessionIndex : nat;
  client : option nat;         (* the handle in [client]; null is None *)
  heap : list Client;          (* every Client built so far, by handle *)
  serverListening : bool
}.

(** The provider may throw from [destroy()] and from [initialize()]. *)
Record provider := Provider {
  destroy_throws : nat → option error;
  initialize_throws : nat → option error
}.

Inductive event :=
| Emit (h : nat) (sig : signal)           (* the provider emits on client h *)
| DestroyRejected (h : nat) (e : error).  (* the promise of destroy() fails *)

Definition update (h : nat) (f : Client → Client) (s : state) : state :=
  State (currentSessionIndex s) (client s) (alter f h (heap s))
        (serverListening s).

Definition mark_destroy (c : Client) : Client :=
  MkClient (clientId c) (on c) (once_ready c) (initialize_called c) true
           (ready c).

Definition mark_initialize (c : Client) : Client :=
  MkClient (clientId c) (on c) (once_ready c) true (destroy_called c)
           (ready c).

Definition hook_once_ready (c : Client) : Client :=
  MkClient (clientId c) (on c) true (initialize_called c) (destroy_called c)
           (ready c).

Definition mark_ready (c : Client) : Client :=
  MkClient (clientId c) (on c) false (initialize_called c) (destroy_called c)
           true.

(** [try { body } catch (e) { console.error(...) }]: the body reports the
    state it reached and the exception it raised, if any; the handler only
    logs. *)
Definition try_log (body : state * option error) : state := body.1.

Section Pool.
Variable sessionIds : list string.   (* const sessionIds = [...] *)
Variable P : provider.

(** [createClient(sessionId)]: a new client with its six handlers. *)
Definition createClient (sessionId : option string) (s : state)
  : nat * state :=
  (length (heap s),
   State (currentSessionIndex s) (client s)
         (heap s ++ [MkClient sessionId
                       [Qr; LoadingScreen; Ready; AuthFailure; Disconnected;
                        Message]
                       false false false false])
         (serverListening s)).

(** [client.destroy()] and [client.initialize()] as calls that may throw. *)
Definition destroy (h : nat) (s : state) : state * option error :=
  (update h mark_destroy s, destroy_throws P h).

Definition initialize (h : nat) (s : state) : state * option error :=
  (update h mark_initialize s, initialize_throws P h).

(** [failover()].  The index arithmetic is the source's; the pool is never
    empty there, and the model is not meant for an empty one, where
    JavaScript's [%] gives NaN. *)
Definition failover (s : state) : state :=
  let s1 :=
    try_log (match client s with
             | Some h => destroy h s   (* .catch(...) on the promise *)
             | None => (s, None)
             end) in
  let i := (currentSessionIndex s1 + 1) `mod` length sessionIds in
  let s2 := State i (client s1) (heap s1) (serverListening s1) in
  let newSession := sessionIds !! i in
  let '(h, s3) := createClient newSession s2 in
  let s4 := State (currentSessionIndex s3) (Some h) (heap s3)
                  (serverListening s3) in
  let s5 := try_log (initialize h s4) in
  update h hook_once_ready s5.

(** The state the module-level code leaves: the first client is built,
    initialised and watched for its first ['ready']. *)
Definition boot : state :=
  let '(h, s1) := createClient (sessionIds !! 0) (State 0 None [] false) in
  let s2 := State 0 (Some h) (heap s1) false in
  update h hook_once_ready (try_log (initialize h s2)).

(** The handler of ['ready'] hooked by [once]: it starts the HTTP server
    unless it is already listening. *)
Definition on_ready (h : nat) (s : state) : state :=
  match heap s !! h with
  | Some c =>
      let s1 := update h mark_ready s in
      if once_ready c
      then State (currentSessionIndex s1) (client s1) (heap s1) true
      else s1
  | None => s
  end.

Definition emit (h : nat) (sig : signal) (s : state) : state :=
  match heap s !! h with
  | Some c =>
      if bool_decide (sig ∈ on c) then
        match sig with
        | Ready => on_ready h s
        | Disconnected => failover s
        | _ => s
        end
      else s
  | None => s
  end.

Definition step (ev : event) (s : state) : state :=
  match ev with
  | Emit h sig => emit h sig s
  | DestroyRejected _ _ => s      (* e => console.error(...) *)
  end.

(** Running a sequence of provider events. *)
Fixpoint exec (evs : list event) (s : state) : state :=
  match evs with
  | [] => s
  | ev :: evs' => exec evs' (step ev s)
  end.

(** The calls of [app.listen] a step makes: the handler hooked by [once] on
    ['ready'] binds the port unless [serverListening] is already set
    (lines 183-196 and 212-222). *)
Definition listens (ev : event) (s : state) : nat :=
  match ev with
  | Emit h Ready =>
      match heap s !! h with
      | Some c =>
          if bool_decide (Ready ∈ on c) && once_ready c
             && negb (serverListening s)
          then 1 else 0
      | None => 0
      end
  | _ => 0
  end.

Fixpoint listen_calls (evs : list event) (s : state) : nat :=
  match evs with
  | [] => 0
  | ev :: evs' => listens ev s + listen_calls evs' (step ev s)
  end.

(** The current client is the last one built. *)
Definition current_is_last (s : state) : Prop :=
  ∃ h, client s = Some h ∧ S h = length (heap s).

(** One live session: the current client is the last one built, it was
    built for the identity the index points at and [destroy()] has not been
    called on it; every client before it has had [destroy()] called; every
    client has its six handlers and has had [initialize()] called. *)
Definition live (s : state) : Prop :=
  currentSessionIndex s < length sessionIds ∧
  ∃ h c,
    client s = Some h ∧ S h = length (heap s) ∧ heap s !! h = Some c ∧
    clientId c = sessionIds !! currentSessionIndex s ∧
    destroy_called c = false ∧
    (∀ h' c', h' < h → heap s !! h' = Some c' → destroy_called c' = true) ∧
    (∀ h' c', heap s !! h' = Some c' →
              initialize_called c' = true ∧
              on c' = [Qr; LoadingScreen; Ready; AuthFailure; Disconnected;
                       Message]).

End Pool.

End Session.

(** ** [enqueueSendOperation] (src/main.js, lines 233-247): the queue and
       the session controller put together *)

Module Sender.

(** What the action of a job did when the queue called it: it found a client
    and called the handler's task on it, or it threw for want of one. *)
Inductive act :=
| Calling (h : nat)
| Refused.

Record state := State {
  q : TaskQueue.state;         (* sendQueue *)
  ctl : Session.state;         (* client, currentSessionIndex, ... *)
  acts : gmap nat act
}.

(** [new Error('Cliente no inicializado')] *)
Definition no_client : error := Error "Cliente no inicializado".

Section Sender.
Context {V : Type}.
Variable sessionIds : list string.
Variable P : Session.provider.

Inductive output :=
| Attempt (id h : nat)          (* fn() is called: the send goes to client h *)
| NoClient (id : nat)           (* the action throws before calling fn *)
| Failover                      (* failover() is called *)
| Returned (id : nat) (v : V)   (* enqueueSendOperation returns v *)
| Thrown (id : nat) (e : error).  (* enqueueSendOperation throws e *)

Inductive event :=
| Send (opts : option N)              (* enqueueSendOperation(fn, opts) *)
| Settles (id : nat) (o : outcome V)  (* the promise of fn() settles *)
| Refusal (id : nat)                  (* the throw of the action reaches the race *)
| JobTimer (id : nat)                 (* the timer of the job fires *)
| ClientEvent (ev : Session.event).

(** The action handed to the queue:
    [async () => { if (!client) throw ...; return await fn() }],
    up to its first suspension.  When it throws, its promise is rejected
    from the start and the race learns of it a few micro-tasks later; the
    model lets that arrive as the event [Refusal], which leaves room for
    more interleavings than the runtime has. *)
Definition action (j : TaskQueue.job) (s : state) : state * list output :=
  match Session.client (ctl s) with
  | None =>
      (State (q s) (ctl s) (<[TaskQueue.fn j := Refused]> (acts s)),
       [NoClient (TaskQueue.fn j)])
  | Some h =>
      (State (q s) (ctl s) (<[TaskQueue.fn j := Calling h]> (acts s)),
       [Attempt (TaskQueue.fn j) h])
  end.

(** What follows [await sendQueue.enqueue(...)] once the job is settled:
    the value is returned, or the [catch] block runs [failover()] and
    throws the error again. *)
Definition settled (d : TaskQueue.job * outcome V) (s : state)
  : state * list output :=
  match d.2 with
  | Success v => (s, [Returned (TaskQueue.fn d.1) v])
  | Failure e =>
      (State (q s)
             (Session.try_log (Session.failover sessionIds P (ctl s), None))
             (acts s),
       [Failover; Thrown (TaskQueue.fn d.1) e])
  end.

Fixpoint each {A} (f : A → state → state * list output) (l : list A)
    (s : state) : state * list output :=
  match l with
  | [] => (s, [])
  | x :: l' =>
      let '(s1, o1) := f x s in
      let '(s2, o2) := each f l' s1 in
      (s2, o1 ++ o2)
  end.

(** One turn of the queue seen from outside.  [_process] settles the job
    and, in the same micro-task, calls the action of the next one; the
    continuation of the caller of the settled job is a later micro-task. *)
Definition react (r : TaskQueue.state * list (TaskQueue.output V))
    (s : state) : state * list output :=
  let s0 := State r.1 (ctl s) (acts s) in
  let '(s1, o1) := each action (TaskQueue.started r.2) s0 in
  let '(s2, o2) := each settled (TaskQueue.deliveries r.2) s1 in
  (s2, o1 ++ o2).

(** A ['disconnected'] event runs [failover()] from its handler. *)
Definition provider_event (ev : Session.event) (s : state)
  : state * list output :=
  (State (q s) (Session.step sessionIds P ev (ctl s)) (acts s),
   match ev with
   | Session.Emit h Session.Disconnected =>
       match Session.heap (ctl s) !! h with
       | Some c =>
           if bool_decide (Session.Disconnected ∈ Session.on c)
           then [Failover] else []
       | None => []
       end
   | _ => []
   end).

Definition step (ev : event) (s : state) : state * list output :=
  match ev with
  | Send opts => react (TaskQueue.enqueue opts (q s)) s
  | Settles id o =>
      match acts s !! id with
      | Some (Calling _) => react (TaskQueue.action_settles id o (q s)) s
      | _ => (s, [])
      end
  | Refusal id =>
      match acts s !! id with
      | Some Refused =>
          react (TaskQueue.action_settles id (Failure no_client) (q s)) s
      | _ => (s, [])
      end
  | JobTimer id => react (TaskQueue.timer_fires id (q s)) s
  | ClientEvent ev => provider_event ev s
  end.

Fixpoint exec (evs : list event) (s : state) : state * list output :=
  match evs with
  | [] => (s, [])
  | ev :: evs' =>
      let '(s1, o1) := step ev s in
      let '(s2, o2) := exec evs' s1 in
      (s2, o1 ++ o2)
  end.

Definition boot : state :=
  State TaskQueue.init (Session.boot sessionIds P) ∅.

(** Reading a trace. *)
Definition failovers (outs : list output) : nat :=
  length (omap (λ x, match x with Failover => Some () | _ => None end) outs).

Definition thrown (outs : list output) : list (nat * error) :=
  omap (λ x, match x with Thrown id e => Some (id, e) | _ => None end) outs.

Definition attempts (outs : list output) : list (nat * nat) :=
  omap (λ x, match x with Attempt id h => Some (id, h) | _ => None end) outs.

(** The requests a trace answers, those whose action it runs, and those
    whose action throws for want of a client. *)
Definition answers (outs : list output) : list nat :=
  omap (λ x, match x with
             | Returned id _ | Thrown id _ => Some id
             | _ => None
             end) outs.

Definition begun (outs : list output) : list nat :=
  omap (λ x, match x with
             | Attempt id _ | NoClient id => Some id
             | _ => None
             end) outs.

Definition refusals (outs : list output) : list nat :=
  omap (λ x, match x with NoClient id => Some id | _ => None end) outs.

(** A ['disconnected'] event that finds its handler. *)
Definition disconnects (s : state) (ev : event) : nat :=
  match ev with
  | ClientEvent (Session.Emit h Session.Disconnected) =>
      match Session.heap (ctl s) !! h with
      | Some c =>
          if bool_decide (Session.Disconnected ∈ Session.on c) then 1 else 0
      | None => 0
      end
  | _ => 0
  end.

(** What the loop does for the head of the queue when the running job is
    settled. *)
Definition next_start (s : state) : list output :=
  match head (TaskQueue.queue (q s)) with
  | Some k => (action k s).2
  | None => []
  end.

(** The reading of the error policy under which a job that ran out of time
    is reported without [failover()] being called. *)
Definition timeout_spares_failover : Prop :=
  ∀ (evs : list event) (id : nat) (ms : N),
    let s := (exec evs boot).1 in
    thrown (step (JobTimer id) s).2 = [(id, TaskQueue.timeout_error ms)] →
    failovers (step (JobTimer id) s).2 = 0.

(** The reading of the send path under which no send goes to a client that
    has not been ready. *)
Definition sends_only_when_ready : Prop :=
  ∀ (evs : list event) (ev : event) (id h : nat),
    let s := (exec evs boot).1 in
    (id, h) ∈ attempts (step ev s).2 →
    Session.ready <$> Session.heap (ctl s) !! h = Some true.

(** The queue inside a state is in a state the loop can reach. *)
Definition qinv (s : state) : Prop :=
  ∃ all (done : list (TaskQueue.job * outcome V)) cur,
    TaskQueue.inv all done cur (q s).

(** The controller holds a client, the last one built, and no action has
    thrown for want of one. *)
Definition supplied (s : state) : Prop :=
  Session.current_is_last (ctl s) ∧ ∀ id, acts s !! id ≠ Some Refused.

(** The same state, with the record of which clients are ready erased. *)
Definition forget_ready (c : Session.Client) : Session.Client :=
  Session.MkClient (Session.clientId c) (Session.on c) (Session.once_ready c)
    (Session.initialize_called c) (Session.destroy_called c) false.

Definition blind_ctl (c : Session.state) : Session.state :=
  Session.State (Session.currentSessionIndex c) (Session.client c)
    (forget_ready <$> Session.heap c) (Session.serverListening c).

Definition blind (s : state) : state :=
  State (q s) (blind_ctl (ctl s)) (acts s).

End Sender.

Arguments output : clear implicits.
Arguments event : clear implicits.

End Sender.

(** ** The variant with a readiness gate
       (src/unnamed/part_000, lines 16-188: [enqueue], [processQueue],
       [waitForClientReady], [createClient], [failover]) *)

Module MainQueue.

(** [{ taskFn, resolve, reject }], named by the position of the submission.
    The handlers of the three send routes call [failover()] when the promise
    of [enqueue] fails, the one of /esperar does not: [on_error] tells which
    kind of handler waits for the item. *)
Record item := Item { taskFn : nat; on_error : bool }.

(** Where [processQueue] is suspended: nowhere, at
    [await waitForClientReady()] with the client whose ['ready'] it listens
    for and the delay of its timer, or at [await item.taskFn()]. *)
Inductive phase :=
| Idle
| AtGate (it : item) (listening : option nat) (timeout : N)
| InTask (it : item).

Record state := State {
  sendQueue : list item;
  processingQueue : bool;
  submitted : nat;
  at_ : phase;
  client : option nat;
  clientReady : bool;
  currentSessionIndex : nat;
  heap : list Session.Client
}.

(** [new Error('Timeout esperando client.ready')] *)
Definition gate_timeout : error := Error "Timeout esperando client.ready".

Definition is_failure {V} (o : outcome V) : bool :=
  match o with Failure _ => true | Success _ => false end.

Section MainQueue.
Context {V : Type}.
Variable sessionIds : list string.
Variable P : Session.provider.

Inductive output :=
| Entered (i : nat)                 (* the loop takes item i to the gate *)
| Passed (i : nat) (h : nat)        (* the gate opens for item i, on client h *)
| Expired (i : nat)                 (* the timer of the gate fires *)
| Invoked (i : nat) (c : option nat)  (* item.taskFn() is called; it uses [client] *)
| Delivered (i : nat) (o : outcome V)
| Failover.

Inductive event :=
| Enqueue (on_error : bool)
| Emit (h : nat) (sig : Session.signal)
| GateTimer (i : nat)
| TaskSettles (i : nat) (o : outcome V).

Definition set_at (p : phase) (s : state) : state :=
  State (sendQueue s) (processingQueue s) (submitted s) p (client s)
        (clientReady s) (currentSessionIndex s) (heap s).

Definition set_heap (l : list Session.Client) (s : state) : state :=
  State (sendQueue s) (processingQueue s) (submitted s) (at_ s) (client s)
        (clientReady s) (currentSessionIndex s) l.

Definition set_clientReady (b : bool) (s : state) : state :=
  State (sendQueue s) (processingQueue s) (submitted s) (at_ s) (client s)
        b (currentSessionIndex s) (heap s).

(** [failover()] of this variant: it also lowers [clientReady]. *)
Definition failover (s : state) : state :=
  let heap1 :=
    match client s with
    | Some h => alter Session.mark_destroy h (heap s)  (* try/catch, .catch *)
    | None => heap s
    end in
  let i := (currentSessionIndex s + 1) `mod` length sessionIds in
  let h := length heap1 in
  let fresh :=
    Session.MkClient (sessionIds !! i)
      [Session.Qr; Session.LoadingScreen; Session.Ready; Session.AuthFailure;
       Session.Disconnected; Session.Message]
      false true false false in        (* created, then initialize() *)
  State (sendQueue s) (processingQueue s) (submitted s) (at_ s) (Some h)
        false i (heap1 ++ [fresh]).

(** [waitForClientReady()] and what follows it in the loop.  When a client
    exists and [clientReady] is set the promise is already resolved and the
    task is called in the next micro-task; otherwise the loop stays at the
    gate, listening on the client of the moment (if any), timer armed with
    the default delay. *)
Definition turn (s : state) : state * list output :=
  match sendQueue s with
  | [] =>
      (State [] false (submitted s) Idle (client s) (clientReady s)
             (currentSessionIndex s) (heap s), [])
  | it :: rest =>
      let s1 := State rest (processingQueue s) (submitted s) (at_ s)
                      (client s) (clientReady s) (currentSessionIndex s)
                      (heap s) in
      match client s1 with
      | Some h =>
          if clientReady s1
          then (set_at (InTask it) s1,
                [Entered (taskFn it); Passed (taskFn it) h;
                 Invoked (taskFn it) (Some h)])
          else (set_at (AtGate it (Some h) 60000) s1, [Entered (taskFn it)])
      | None => (set_at (AtGate it None 60000) s1, [Entered (taskFn it)])
      end
  end.

Definition processQueue (s : state) : state * list output :=
  if processingQueue s then (s, [])
  else turn (State (sendQueue s) true (submitted s) (at_ s) (client s)
                   (clientReady s) (currentSessionIndex s) (heap s)).

Definition enqueue (on_error : bool) (s : state) : state * list output :=
  processQueue
    (State (sendQueue s ++ [Item (submitted s) on_error]) (processingQueue s)
           (S (submitted s)) (at_ s) (client s) (clientReady s)
           (currentSessionIndex s) (heap s)).

(** The item is settled with [o] and the loop goes round.  The promise the
    handler awaits is the one of the [async] function [enqueue], which
    follows the item's own promise two micro-tasks later: the handler's
    [catch], and its [failover()], run after the loop has reached its next
    suspension. *)
Definition resume (it : item) (o : outcome V) (s : state)
  : state * list output :=
  let '(s1, o1) := turn s in
  if on_error it && is_failure o
  then (failover s1, Delivered (taskFn it) o :: o1 ++ [Failover])
  else (s1, Delivered (taskFn it) o :: o1).

(** ['ready'] on client [h]: the handler of [createClient] raises
    [clientReady] when [h] was built for the current identity, then the
    listener of the gate, if it is on [h], opens it. *)
Definition on_ready (h : nat) (c : Session.Client) (s : state)
  : state * list output :=
  let s1 := set_heap (alter Session.mark_ready h (heap s)) s in
  let s2 :=
    if bool_decide (sessionIds !! currentSessionIndex s1 = Session.clientId c)
    then set_clientReady true s1 else s1 in
  match at_ s2 with
  | AtGate it (Some h') _ =>
      if bool_decide (h' = h)
      then (set_at (InTask it) s2,
            [Passed (taskFn it) h; Invoked (taskFn it) (client s2)])
      else (s2, [])
  | _ => (s2, [])
  end.

Definition emit (h : nat) (sig : Session.signal) (s : state)
  : state * list output :=
  match heap s !! h with
  | Some c =>
      if bool_decide (sig ∈ Session.on c) then
        match sig with
        | Session.Ready => on_ready h c s
        | Session.Disconnected =>
            (failover (set_clientReady false s), [Failover])
        | _ => (s, [])
        end
      else (s, [])
  | None => (s, [])
  end.

Definition gate_timer (i : nat) (s : state) : state * list output :=
  match at_ s with
  | AtGate it _ _ =>
      if bool_decide (taskFn it = i)
      then let '(s', o) := resume it (Failure gate_timeout) s in
           (s', Expired i :: o)
      else (s, [])
  | _ => (s, [])
  end.

Definition task_settles (i : nat) (o : outcome V) (s : state)
  : state * list output :=
  match at_ s with
  | InTask it => if bool_decide (taskFn it = i) then resume it o s else (s, [])
  | _ => (s, [])
  end.

Definition step (ev : event) (s : state) : state * list output :=
  match ev with
  | Enqueue b => enqueue b s
  | Emit h sig => emit h sig s
  | GateTimer i => gate_timer i s
  | TaskSettles i o => task_settles i o s
  end.

Fixpoint exec (evs : list event) (s : state) : state * list output :=
  match evs with
  | [] => (s, [])
  | ev :: evs' =>
      let '(s1, o1) := step ev s in
      let '(s2, o2) := exec evs' s1 in
      (s2, o1 ++ o2)
  end.

(** After the module-level code: the first client is built and
    initialised, nothing is ready yet. *)
Definition boot : state :=
  State [] false 0 Idle (Some 0) false 0
        [Session.MkClient (sessionIds !! 0)
           [Session.Qr; Session.LoadingScreen; Session.Ready;
            Session.AuthFailure; Session.Disconnected; Session.Message]
           true true false false].

(** Every call of a task comes right after the gate has opened for the
    same item. *)
Fixpoint gated (prev : option output) (outs : list output) : bool :=
  match outs with
  | [] => true
  | x :: rest =>
      match x with
      | Invoked i _ =>
          match prev with
          | Some (Passed i' _) => bool_decide (i' = i)
          | _ => false
          end
      | _ => true
      end && gated (Some x) rest
  end.

Definition invoked (outs : list output) : list nat :=
  omap (λ x, match x with Invoked i _ => Some i | _ => None end) outs.

(** The items a trace takes from the queue, and the items it answers. *)
Definition entered (outs : list output) : list nat :=
  omap (λ x, match x with Entered i => Some i | _ => None end) outs.

Definition delivered (outs : list output) : list nat :=
  omap (λ x, match x with Delivered i _ => Some i | _ => None end) outs.

(** A piece of trace that is well gated whatever came before it. *)
Definition sound (o : list output) : Prop :=
  ∀ prev, gated prev o = true.

(** *** The shape of the reachable states *)

Definition six : list Session.signal :=
  [Session.Qr; Session.LoadingScreen; Session.Ready; Session.AuthFailure;
   Session.Disconnected; Session.Message].

(** The first item the loop has not taken yet. *)
Definition low (s : state) : nat :=
  match at_ s with
  | Idle => submitted s
  | AtGate it _ _ | InTask it => S (taskFn it)
  end.

(** The first item whose task may still be called. *)
Definition bound (s : state) : nat :=
  match at_ s with
  | AtGate it _ _ => taskFn it
  | _ => low s
  end.

(** The first item that has not been answered yet. *)
Definition served (s : state) : nat :=
  match at_ s with
  | Idle => submitted s
  | AtGate it _ _ | InTask it => taskFn it
  end.

Definition queued (k : nat) (s : state) : Prop :=
  taskFn <$> sendQueue s = seq k (submitted s - k) ∧ k ≤ submitted s.

Definition wired (s : state) : Prop :=
  (∀ h c, heap s !! h = Some c → Session.on c = six) ∧
  (∀ h, client s = Some h → h < length (heap s)).

Definition wf (s : state) : Prop :=
  queued (low s) s ∧ wired s ∧
  processingQueue s = match at_ s with Idle => false | _ => true end ∧
  (∀ it h ms, at_ s = AtGate it (Some h) ms → h < length (heap s)) ∧
  (∀ it l ms, at_ s = AtGate it l ms → ms = 60000%N).

End MainQueue.

Arguments output : clear implicits.
Arguments event : clear implicits.

End MainQueue.

(** ** The reply correlator: the four maps, the registration block of
       /esperar, the ['message'] handler and GET /respuesta/:idMensaje
       (src/main.js, lines 23-26, 139-155, 381-398, 409-447) *)

Module Correlator.

(** An inbound message of the provider, as far as the correlator reads
    it. *)
Record message := Message { from : string; body : string }.

(** The four maps, and the pending [setTimeout] handles of the deadlines,
    each with the [chatId] and [idMensaje] its callback closes over.  A
    waiter is the [resolve] function of the promise a GET /respuesta
    request awaits, named by the request. *)
Record state := State {
  esperas : gmap string string;           (* chatId -> idMensaje *)
  respuestas : gmap string message;       (* idMensaje -> message *)
  resolvers : gmap string (list nat);     (* idMensaje -> [resolve, ...] *)
  timeouts : gmap string nat;             (* idMensaje -> timeoutId *)
  timers : gmap nat (string * string);
  next_timer : nat
}.

Definition init : state := State ∅ ∅ ∅ ∅ ∅ 0.

Inductive output :=
| Woken (w : nat) (r : option message)  (* r({ message }) or r(null) *)
| Replied (w : nat) (m : message)       (* the cached reply, at once *)
| NotFound (w : nat)                    (* 404 'Respuesta no encontrada' *)
| Crashed (w : nat).                    (* .push on undefined: TypeError *)

Inductive event :=
| Espera (chatId : string) (idMensaje : option string)
| Inbound (m : message)
| Deadline (t : nat)
| Respuesta (idMensaje : string) (w : nat).

(** [if (idMensaje) { ... }] of /esperar; [null] and the empty string are
    falsy. *)
Definition registerWait (chatId : string) (idMensaje : option string)
    (s : state) : state :=
  match idMensaje with
  | Some id =>
      if bool_decide (id = "") then s
      else
        let t := next_timer s in
        State (<[chatId := id]> (esperas s))
              (respuestas s)
              (<[id := []]> (resolvers s))
              (<[id := t]> (timeouts s))
              (<[t := (chatId, id)]> (timers s))
              (S t)
  | None => s
  end.

Definition wake (r : option message) (ws : option (list nat)) : list output :=
  (λ w, Woken w r) <$> default [] ws.

(** [newClient.on('message', ...)] *)
Definition onInboundMessage (m : message) (s : state) : state * list output :=
  let chatId := from m in
  match esperas s !! chatId with
  | Some idMensaje =>
      let respuestas1 := <[idMensaje := m]> (respuestas s) in
      let esperas1 := delete chatId (esperas s) in
      let '(resolvers1, woken) :=
        match resolvers s !! idMensaje with
        | Some ws => (delete idMensaje (resolvers s), wake (Some m) (Some ws))
        | None => (resolvers s, [])
        end in
      let '(timeouts1, timers1) :=
        match timeouts s !! idMensaje with
        | Some t => (delete idMensaje (timeouts s),
                     delete t (timers s))          (* clearTimeout *)
        | None => (timeouts s, timers s)
        end in
      (State esperas1 respuestas1 resolvers1 timeouts1 timers1 (next_timer s),
       woken)
  | None => (s, [])
  end.

(** The callback of the deadline timer [t]. *)
Definition deadline (t : nat) (s : state) : state * list output :=
  match timers s !! t with
  | Some (chatId, idMensaje) =>
      if bool_decide (esperas s !! chatId = Some idMensaje)
         && negb (bool_decide (is_Some (respuestas s !! idMensaje)))
      then
        (State (delete chatId (esperas s))
               (respuestas s)
               (delete idMensaje (resolvers s))
               (delete idMensaje (timeouts s))
               (delete t (timers s))
               (next_timer s),
         wake None (resolvers s !! idMensaje))
      else
        (State (esperas s) (respuestas s) (resolvers s)
               (delete idMensaje (timeouts s))
               (delete t (timers s))
               (next_timer s),
         [])
  | None => (s, [])
  end.

(** [Array.from(esperas.entries()).some(([, v]) => v === idMensaje)] *)
Definition estaEsperando (idMensaje : string) (s : state) : bool :=
  bool_decide (map_Exists (λ _ v, v = idMensaje) (esperas s)).

(** GET /respuesta/:idMensaje up to its [await]. *)
Definition respuesta (idMensaje : string) (w : nat) (s : state)
  : state * list output :=
  match respuestas s !! idMensaje with
  | Some m => (s, [Replied w m])
  | None =>
      if estaEsperando idMensaje s then
        match resolvers s !! idMensaje with
        | Some ws =>
            (State (esperas s) (respuestas s)
                   (<[idMensaje := ws ++ [w]]> (resolvers s))
                   (timeouts s) (timers s) (next_timer s),
             [])
        | None => (s, [Crashed w])
        end
      else (s, [NotFound w])
  end.

Definition step (ev : event) (s : state) : state * list output :=
  match ev with
  | Espera c id => (registerWait c id s, [])
  | Inbound m => onInboundMessage m s
  | Deadline t => deadline t s
  | Respuesta id w => respuesta id w s
  end.

Fixpoint exec (evs : list event) (s : state) : state * list output :=
  match evs with
  | [] => (s, [])
  | ev :: evs' =>
      let '(s1, o1) := step ev s in
      let '(s2, o2) := exec evs' s1 in
      (s2, o1 ++ o2)
  end.

(** The identifiers the provider issued to the sends of /esperar. *)
Definition issued (evs : list event) : list string :=
  omap (λ ev, match ev with
              | Espera _ (Some id) => if bool_decide (id = "") then None
                                      else Some id
              | _ => None
              end) evs.

(** The request an output answers, and the requests of a run. *)
Definition waiter_of (x : output) : nat :=
  match x with
  | Woken w _ | Replied w _ | NotFound w | Crashed w => w
  end.

Definition asked (evs : list event) : list nat :=
  omap (λ ev, match ev with Respuesta _ w => Some w | _ => None end) evs.

(** The waiters held in [resolvers] are requests seen and not answered, no
    waiter is held twice, and no request has been answered twice. *)
Definition tidy (seen answered : list nat) (s : state) : Prop :=
  (∀ id ws, resolvers s !! id = Some ws →
            NoDup ws ∧ ∀ w, w ∈ ws → w ∈ seen ∧ w ∉ answered) ∧
  (∀ id id' ws ws' w,
     resolvers s !! id = Some ws → resolvers s !! id' = Some ws' →
     w ∈ ws → w ∈ ws' → id = id') ∧
  NoDup answered ∧
  (∀ w, w ∈ answered → w ∈ seen).

(** Every identifier some conversation maps to has a list of waiters and
    was issued before, and no two conversations map to one identifier. *)
Definition sane (ids : list string) (s : state) : Prop :=
  (∀ c id, esperas s !! c = Some id →
           is_Some (resolvers s !! id) ∧ id ∈ ids) ∧
  (∀ c c' id, esperas s !! c = Some id → esperas s !! c' = Some id → c = c').

End Correlator.

(** ** The validation at the head of the four send routes
       (src/main.js, lines 257-260, 286-298, 337-340, 366-369) *)

Module Http.

Inductive route := EnviarMensaje | EnviarArchivo | EnviarUbicacion | Esperar.

(** The fields of [req.body] and [req.file?.path], each absent or a string;
    [legible] tells whether [fs.readFileSync] succeeds on the upload.  The
    length of a string counts its characters one code unit each, which is
    exact for the digits a number is made of. *)
Record request := Request {
  numero : option string;
  texto : option string;
  lat : option string;
  lon : option string;
  archivo : option string;
  legible : bool
}.

Inductive reply :=
| Respond (status : nat) (error : string)
| Forward (chatId : string) (timeoutMs : N).

(** [!x] on an absent field or a string. *)
Definition falsy (x : option string) : bool :=
  match x with
  | None => true
  | Some v => bool_decide (v = "")
  end.

Definition length_is_13 (x : option string) : bool :=
  match x with
  | Some v => bool_decide (String.length v = 13)
  | None => false
  end.

Definition chatId (x : option string) : string := default "" x +:+ "@c.us".

Definition enviar_mensaje (req : request) : reply :=
  if falsy (numero req) || falsy (texto req) then Respond 400 "Faltan datos"
  else if negb (length_is_13 (numero req)) then Respond 404 "Número inválido"
  else Forward (chatId (numero req)) 45000.

Definition enviar_archivo (req : request) : reply :=
  if falsy (numero req) || falsy (archivo req) then Respond 400 "Faltan datos"
  else if negb (length_is_13 (numero req)) then Respond 404 "Número inválido"
  else if negb (legible req) then Respond 500 "Error al procesar archivo"
  else Forward (chatId (numero req)) 120000.

Definition enviar_ubicacion (req : request) : reply :=
  if falsy (numero req) || falsy (lat req) || falsy (lon req)
  then Respond 400 "Faltan datos"
  else if negb (length_is_13 (numero req)) then Respond 404 "Número inválido"
  else Forward (chatId (numero req)) 45000.

Definition esperar (req : request) : reply :=
  if falsy (numero req) || falsy (texto req) then Respond 400 "Faltan datos"
  else if negb (length_is_13 (numero req)) then Respond 404 "Número inválido"
  else Forward (chatId (numero req)) 45000.

Definition handler (r : route) : request → reply :=
  match r with
  | EnviarMensaje => enviar_mensaje
  | EnviarArchivo => enviar_archivo
  | EnviarUbicacion => enviar_ubicacion
  | Esperar => esperar
  end.

(** The other fields the route insists on. *)
Definition complete (r : route) (req : request) : bool :=
  match r with
  | EnviarMensaje | Esperar => negb (falsy (texto req))
  | EnviarArchivo => negb (falsy (archivo req))
  | EnviarUbicacion => negb (falsy (lat req)) && negb (falsy (lon req))
  end.

Section Serve.
Context {V : Type}.
Variable sessionIds : list string.
Variable P : Session.provider.

(** A request reaches the queue only through [enqueueSendOperation], and
    only when its handler gets that far. *)
Definition serve (r : route) (req : request) (s : Sender.state)
  : Sender.state * list (Sender.output V) * reply :=
  match handler r req with
  | Respond st e => (s, [], Respond st e)
  | Forward c ms =>
      (Sender.step sessionIds P (Sender.Send (Some ms)) s, Forward c ms)
  end.

End Serve.

(** *** The handlers past their validation *)

(** What a handler sends back: [res.json(v)], or
    [res.status(status).json({ error })]. *)
Inductive answer (A : Type) :=
| Json (v : A)
| Status (status : nat) (error : string).
Arguments Json {A} v.
Arguments Status {A} status error.

(** [safeUnlinkSync(p)] on the files of the disk: the file is unlinked when
    [p] is a non-empty path and the file exists; what [unlinkSync] throws is
    caught and logged, and [unlink_ok] tells whether it succeeds. *)
Definition safeUnlinkSync (unlink_ok : bool) (p : option string)
    (files : gset string) : gset string :=
  if falsy p then files
  else if bool_decide (default "" p ∈ files)
       then (if unlink_ok then files ∖ {[default "" p]} else files)
       else files.

(** The handler of /enviar-archivo (lines 286-334) with the files on disk;
    [sent] is how [enqueueSendOperation] ends when the request gets that
    far. *)
Definition enviar_archivo_handler {V} (unlink_ok : bool) (req : request)
    (sent : outcome V) (files : gset string) : gset string * answer V :=
  let filePath := archivo req in
  if falsy (numero req) || falsy filePath
  then (safeUnlinkSync unlink_ok filePath files, Status 400 "Faltan datos")
  else if negb (length_is_13 (numero req))
  then (safeUnlinkSync unlink_ok filePath files, Status 404 "Número inválido")
  else if negb (legible req)
  then (safeUnlinkSync unlink_ok filePath files,
        Status 500 "Error al procesar archivo")
  else match sent with
       | Success resultado =>
           (safeUnlinkSync unlink_ok filePath files, Json resultado)
       | Failure _ =>
           (safeUnlinkSync unlink_ok filePath files,
            Status 500 "Falló el envío del archivo")
       end.

(** The [id] of a message the provider has sent, as far as /esperar reads
    it: [message.id] may be missing, and so may its fields [id] and
    [_serialized]. *)
Record msg_id := MsgId {
  id_id : option string;
  id_serialized : option string
}.

Record sent_message := SentMessage { message_id : option msg_id }.

(** [message.id?.id || (message.id && message.id._serialized) || null] *)
Definition idMensaje (message : sent_message) : option string :=
  match message_id message with
  | Some k =>
      if negb (falsy (id_id k)) then id_id k
      else if negb (falsy (id_serialized k)) then id_serialized k
      else None
  | None => None
  end.

(** The handler of /esperar (lines 366-406) on the maps of the
    correlator; the answer carries the [id] field of the JSON it sends. *)
Definition esperar_handler (req : request) (sent : outcome sent_message)
    (s : Correlator.state) : Correlator.state * answer (option string) :=
  if falsy (numero req) || falsy (texto req)
  then (s, Status 400 "Faltan datos")
  else if negb (length_is_13 (numero req))
  then (s, Status 404 "Número inválido")
  else match sent with
       | Success message =>
           (Correlator.registerWait (chatId (numero req)) (idMensaje message)
              s,
            Json (idMensaje message))
       | Failure _ => (s, Status 500 "Falló el envío del mensaje")
       end.

(** A message of [chat.fetchMessages], as far as /estado reads it. *)
Record fetched := Fetched { fetched_id : string; ack : nat }.

(** The handler of /estado (lines 450-470); [fetch] is how
    [client.getChatById] followed by [chat.fetchMessages] ends. *)
Definition estado (id numero : option string)
    (fetch : outcome (list fetched)) : answer fetched :=
  if falsy numero || falsy id then Status 400 "Faltan datos"
  else if negb (length_is_13 numero) then Status 404 "Número inválido"
  else match fetch with
       | Success messages =>
           match List.find (λ m, bool_decide (fetched_id m = default "" id))
                   messages with
           | Some message => Json message
           | None => Status 404 "Mensaje no encontrado"
           end
       | Failure _ => Status 500 "Error al consultar estado"
       end.

(** The reading of the validation under which any length but 13 is a
    404. *)
Definition every_other_length_is_404 : Prop :=
  ∀ (r : route) (req : request) (n : string),
    numero req = Some n → String.length n ≠ 13 →
    handler r req = Respond 404 "Número inválido".

End Http.

(** * Facts *)

Module TaskQueueFacts.
Import TaskQueue.

Section Facts.
Context {V : Type}.
Implicit Types (s : state) (outs : list (output V)) (j : job).
Implicit Types (done : list (job * outcome V)) (o : outcome V).

Lemma inv_init : inv (V:=V) [] [] None init.
Proof.
  repeat split; done.
Qed.

Lemma trace_of_snoc done j o :
  trace_of (done ++ [(j, o)]) None = trace_of done (Some j) ++ [Delivered j o].
Proof.
  unfold trace_of. rewrite flat_map_app. simpl. by rewrite <- !app_assoc.
Qed.

Lemma trace_of_next done j o k :
  trace_of (done ++ [(j, o)]) (Some k)
  = trace_of done (Some j) ++ [Delivered j o; Started k].
Proof.
  unfold trace_of. rewrite flat_map_app. simpl. by rewrite <- !app_assoc.
Qed.

Lemma started_app outs1 outs2 :
  started (outs1 ++ outs2) = started outs1 ++ started outs2.
Proof. unfold started. apply omap_app. Qed.

Lemma started_trace_of done cur :
  started (trace_of done cur) = done.*1 ++ option_list cur.
Proof.
  unfold trace_of. rewrite started_app. f_equal.
  - unfold started. induction done as [|[j o] done IH]; csimpl; [done|].
    by f_equal.
  - by destruct cur.
Qed.

Lemma one_at_a_time_trace_of done cur :
  one_at_a_time None (trace_of done cur) = true.
Proof.
  unfold trace_of. induction done as [|[j o] done IH]; simpl.
  - by destruct cur.
  - rewrite bool_decide_eq_true_2; done.
Qed.

Lemma in_flight_trace_of done cur : in_flight None (trace_of done cur) = cur.
Proof.
  unfold trace_of. induction done as [|[j o] done IH]; simpl; [|done].
  by destruct cur.
Qed.

Lemma numbered_snoc all opts :
  numbered all → numbered (all ++ [Job (length all) (default 30000%N opts)]).
Proof.
  intros Hn i j Hi. apply lookup_app_Some in Hi as [Hi|[Hle Hi]].
  - by apply Hn.
  - apply list_lookup_singleton_Some in Hi as [Hi <-]. simpl. lia.
Qed.

Lemma inv_fn_cur all done j s :
  inv all done (Some j) s → fn j = length done.
Proof.
  intros (_ & _ & Hall & Hn & _). apply Hn. rewrite <- Hall.
  rewrite lookup_app_r; rewrite length_fmap; [|done].
  by rewrite Nat.sub_diag.
Qed.

Lemma inv_fn_head all done j k rest s :
  inv all done (Some j) s → queue s = k :: rest → fn k = S (length done).
Proof.
  intros (_ & _ & Hall & Hn & _) Hq. apply Hn. rewrite <- Hall, Hq.
  rewrite lookup_app_r; rewrite length_fmap; [|lia].
  by replace (S (length done) - length done) with 1 by lia.
Qed.

Lemma inv_run_cur all done j s :
  inv all done (Some j) s → runs s !! fn j = Some (Run j false true).
Proof.
  intros Hinv. pose proof (inv_fn_cur _ _ _ _ Hinv) as Hfn.
  destruct Hinv as (_ & _ & _ & _ & _ & Hr). rewrite Hr, Hfn.
  rewrite lookup_app_r; rewrite length_fmap; [|done].
  rewrite Nat.sub_diag. simpl. unfold run_of.
  rewrite bool_decide_eq_false_2; [done|lia].
Qed.

Lemma inv_run_unfinished all done cur s id r :
  inv all done cur s → runs s !! id = Some r → finished r = false →
  cur = Some (owner r) ∧ fn (owner r) = id ∧ r = Run (owner r) false true.
Proof.
  intros Hinv Hr Hf. pose proof Hinv as (_ & _ & _ & _ & _ & Hruns).
  rewrite Hruns in Hr. apply fmap_Some in Hr as (j & Hj & ->).
  simpl in *. apply bool_decide_eq_false in Hf.
  apply lookup_app_Some in Hj as [Hj|[Hle Hj]].
  - apply lookup_lt_Some in Hj. rewrite length_fmap in Hj. lia.
  - destruct cur as [k|]; [|done].
    apply list_lookup_singleton_Some in Hj as [Hj <-].
    rewrite length_fmap in Hj, Hle.
    pose proof (inv_fn_cur _ _ _ _ Hinv). unfold run_of.
    rewrite bool_decide_eq_false_2 by done. split_and!; [done|lia|done].
Qed.

Lemma inv_run_finished all done cur s id r :
  inv all done cur s → runs s !! id = Some r → finished r = true →
  timer r = false.
Proof.
  intros (_ & _ & _ & _ & _ & Hruns) Hr Hf. rewrite Hruns in Hr.
  apply fmap_Some in Hr as (j & Hj & ->). simpl in *. by rewrite Hf.
Qed.

(** Submitting a job: it starts at once when the loop is idle, and waits
    in the queue otherwise. *)
Lemma inv_enqueue all done cur s opts :
  inv all done cur s →
  let j := Job (length all) (default 30000%N opts) in
  ∃ s',
    enqueue (V:=V) opts s
    = (s', match cur with None => [Started j] | Some _ => [] end) ∧
    inv (all ++ [j]) done (Some (default j cur)) s'.
Proof.
  intros Hinv j. pose proof Hinv as (Hp & Hq & Hall & Hn & Hsub & Hruns).
  unfold enqueue, _process. simpl. rewrite Hp, Hsub. fold j.
  destruct cur as [k|]; simpl.
  - eexists; split; [done|]. split_and!; simpl; try done.
    + by rewrite <- Hall, <- !app_assoc.
    + by apply numbered_snoc.
    + rewrite length_app. simpl. lia.
  - rewrite (Hq eq_refl). simpl in *. unfold loop, _runWithTimeout. simpl.
    eexists; split; [done|]. rewrite Hq in Hall by done.
    rewrite !app_nil_r in Hall. split_and!; simpl; try done.
    + by rewrite Hall.
    + by apply numbered_snoc.
    + rewrite length_app. simpl. lia.
    + intros id. rewrite app_nil_r in Hruns.
      assert (length all = length done) as Hlen
        by (by rewrite <- Hall, length_fmap).
      rewrite Hlen. destruct (decide (id = length done)) as [->|Hne].
      * rewrite lookup_insert_eq, lookup_app_r; rewrite length_fmap; [|done].
        rewrite Nat.sub_diag. simpl. unfold run_of.
        rewrite bool_decide_eq_false_2; [done|lia].
      * rewrite lookup_insert_ne by done. rewrite Hruns.
        destruct (decide (id < length done)).
        -- rewrite lookup_app_l; [done|by rewrite length_fmap].
        -- rewrite !lookup_ge_None_2; [done| |rewrite length_fmap; lia].
           rewrite length_app, length_fmap. simpl. lia.
Qed.

(** The race of the running job settles: the job is delivered to, and the
    head of the queue starts. *)
Lemma inv_settle all done j s o :
  inv all done (Some j) s →
  ∃ s',
    resume (Run j false true) o (set_run (fn j) (Run j true false) s)
    = (s', Delivered j o :: from_option (λ k, [Started k]) [] (head (queue s)))
    ∧ inv all (done ++ [(j, o)]) (head (queue s)) s'
    ∧ queue s' = tail (queue s).
Proof.
  intros Hinv. pose proof Hinv as (Hp & Hq & Hall & Hn & Hsub & Hruns).
  pose proof (inv_fn_cur _ _ _ _ Hinv) as Hfn.
  unfold resume, loop, set_run. simpl.
  destruct (queue s) as [|k rest] eqn:Hqs; simpl.
  - eexists; split; [done|]. unfold inv. split_and!; simpl; try done.
    + rewrite <- Hall, fmap_app. simpl. by rewrite <- !app_assoc.
    + intros id. rewrite app_nil_r, length_app. simpl.
      destruct (decide (id = length done)) as [->|Hne].
      * rewrite Hfn, lookup_insert_eq, fmap_app. simpl.
        rewrite lookup_app_r; rewrite length_fmap; [|done].
        rewrite Nat.sub_diag. simpl. unfold run_of.
        rewrite bool_decide_eq_true_2; [done|lia].
      * rewrite lookup_insert_ne by lia. rewrite Hruns, fmap_app. simpl.
        destruct ((done.*1 ++ [j]) !! id) as [x|] eqn:Hx; simpl; [|done].
        unfold run_of. apply lookup_lt_Some in Hx.
        rewrite length_app, length_fmap in Hx. simpl in Hx.
        rewrite !bool_decide_eq_true_2; [done|lia|lia].
  - pose proof (inv_fn_head _ _ _ _ _ _ Hinv Hqs) as Hfk.
    unfold _runWithTimeout. simpl.
    eexists; split; [done|]. unfold inv. split_and!; simpl; try done.
    + rewrite <- Hall, fmap_app. simpl. by rewrite <- !app_assoc.
    + intros id. rewrite length_app, fmap_app. simpl.
      rewrite <- app_assoc. simpl.
      destruct (decide (id = S (length done))) as [->|Hne].
      * rewrite Hfk, lookup_insert_eq.
        rewrite lookup_app_r; rewrite length_fmap; [|lia].
        replace (S (length done) - length done) with 1 by lia. simpl.
        unfold run_of. rewrite bool_decide_eq_false_2; [done|lia].
      * rewrite lookup_insert_ne by lia.
        destruct (decide (id = length done)) as [->|Hne'].
        -- rewrite Hfn, lookup_insert_eq.
           rewrite lookup_app_r; rewrite length_fmap; [|done].
           rewrite Nat.sub_diag. simpl. unfold run_of.
           rewrite bool_decide_eq_true_2; [done|lia].
        -- rewrite lookup_insert_ne by lia. rewrite Hruns.
           destruct (decide (id < length done)).
           ++ rewrite !lookup_app_l by (by rewrite length_fmap).
              destruct (done.*1 !! id); simpl; [|done]. unfold run_of.
              rewrite !bool_decide_eq_true_2; [done|lia|lia].
           ++ rewrite !lookup_ge_None_2; [done| |].
              ** rewrite length_app, length_fmap. simpl. lia.
              ** rewrite length_app, length_fmap. simpl. lia.
Qed.

Lemma step_settle all done j s (w : way V) :
  inv all done (Some j) s →
  step (settle_event j w) s
  = resume (Run j false true) (result j w)
           (set_run (fn j) (Run j true false) s).
Proof.
  intros Hinv. pose proof (inv_run_cur _ _ _ _ Hinv) as Hr.
  destruct w; simpl; unfold action_settles, timer_fires; by rewrite Hr.
Qed.

Lemma jobs_of_new_jobs (evs : list (event V)) :
  jobs_of evs = new_jobs 0 evs.
Proof. done. Qed.

Lemma new_jobs_cons_enqueue n (o : option N) (evs : list (event V)) :
  new_jobs n (Enqueue o :: evs)
  = Job n (default 30000%N o) :: new_jobs (S n) evs.
Proof.
  unfold new_jobs. simpl. f_equal; [f_equal; lia|].
  apply imap_ext. intros i x _. simpl. f_equal. lia.
Qed.

(** One event keeps the invariant and extends the trace. *)
Lemma inv_step all done cur s (ev : event V) :
  inv all done cur s →
  ∃ done' cur',
    inv (all ++ new_jobs (length all) [ev]) done' cur' (step ev s).1 ∧
    trace_of done' cur' = trace_of done cur ++ (step ev s).2.
Proof.
  intros Hinv. destruct ev as [opts|id o|id].
  - destruct (inv_enqueue _ _ _ _ opts Hinv) as (s' & Hs' & Hinv').
    simpl. rewrite Hs'. unfold new_jobs. simpl. rewrite Nat.add_0_r.
    exists done, (Some (default (Job (length all) (default 30000%N opts)) cur)).
    split; [done|]. destruct cur; simpl; [by rewrite app_nil_r|].
    unfold trace_of. simpl. by rewrite app_nil_r.
  - unfold new_jobs. simpl. rewrite app_nil_r. unfold action_settles.
    destruct (runs s !! id) as [r|] eqn:Hr; simpl;
      [|exists done, cur; by rewrite app_nil_r].
    destruct (finished r) eqn:Hf; simpl;
      [exists done, cur; by rewrite app_nil_r|].
    destruct (inv_run_unfinished _ _ _ _ _ _ Hinv Hr Hf) as (-> & <- & ->).
    simpl. destruct (inv_settle _ _ _ _ o Hinv) as (s' & -> & Hinv' & _).
    simpl. eexists _, _. split; [done|].
    destruct (head (queue s)); simpl.
    + apply trace_of_next.
    + apply trace_of_snoc.
  - unfold new_jobs. simpl. rewrite app_nil_r. unfold timer_fires.
    destruct (runs s !! id) as [r|] eqn:Hr; simpl;
      [|exists done, cur; by rewrite app_nil_r].
    destruct (finished r) eqn:Hf.
    { rewrite (inv_run_finished _ _ _ _ _ _ Hinv Hr Hf). simpl.
      exists done, cur; by rewrite app_nil_r. }
    destruct (inv_run_unfinished _ _ _ _ _ _ Hinv Hr Hf) as (-> & <- & ->).
    simpl.
    destruct (inv_settle _ _ _ _
                (Failure (timeout_error (timeoutMs (owner r)))) Hinv)
      as (s' & -> & Hinv' & _).
    simpl. eexists _, _. split; [done|].
    destruct (head (queue s)); simpl.
    + apply trace_of_next.
    + apply trace_of_snoc.
Qed.

Lemma new_jobs_cons n (ev : event V) evs :
  new_jobs n (ev :: evs)
  = new_jobs n [ev] ++ new_jobs (n + length (new_jobs n [ev])) evs.
Proof.
  destruct ev; try (unfold new_jobs; simpl; by rewrite Nat.add_0_r).
  rewrite !new_jobs_cons_enqueue. simpl. do 2 f_equal. lia.
Qed.

Lemma inv_exec (evs : list (event V)) :
  ∀ all done cur s,
    inv all done cur s →
    ∃ done' cur',
      inv (all ++ new_jobs (length all) evs) done' cur' (exec evs s).1 ∧
      trace_of done' cur' = trace_of done cur ++ (exec evs s).2.
Proof.
  induction evs as [|ev evs IH]; intros all done cur s Hinv.
  - exists done, cur. simpl. unfold new_jobs. simpl. by rewrite !app_nil_r.
  - destruct (inv_step _ _ _ _ ev Hinv) as (done1 & cur1 & Hinv1 & Htr1).
    destruct (IH _ _ _ _ Hinv1) as (done2 & cur2 & Hinv2 & Htr2).
    simpl. destruct (step ev s) as [s1 o1]. simpl in *.
    destruct (exec evs s1) as [s2 o2]. simpl in *.
    exists done2, cur2. split.
    + rewrite new_jobs_cons, app_assoc. by rewrite length_app in Hinv2.
    + by rewrite Htr2, Htr1, <- app_assoc.
Qed.

Lemma reachable_inv (evs : list (event V)) :
  ∃ done cur,
    inv (jobs_of evs) done cur (exec evs init).1 ∧
    (exec evs init).2 = trace_of done cur.
Proof.
  destruct (inv_exec evs _ _ _ _ inv_init) as (done & cur & Hinv & Htr).
  exists done, cur. split; [done|]. by rewrite Htr.
Qed.

Lemma deliveries_app (o1 o2 : list (output V)) :
  deliveries (o1 ++ o2) = deliveries o1 ++ deliveries o2.
Proof. unfold deliveries. apply omap_app. Qed.

Lemma deliveries_trace_of done cur : deliveries (trace_of done cur) = done.
Proof.
  unfold trace_of. rewrite deliveries_app.
  replace (deliveries (from_option (λ j, [Started j]) [] cur))
    with (@nil (job * outcome V)) by (by destruct cur).
  rewrite app_nil_r. unfold deliveries.
  induction done as [|[j o] done IH]; csimpl; [done|]. by f_equal.
Qed.

(** From any state the invariant describes, settling the running job and
    then each queued job in turn, each in any way, delivers to all of them
    in order and leaves the loop idle. *)
Lemma queue_exec_cons (ev : event V) evs s :
  exec (ev :: evs) s
  = ((exec evs (step ev s).1).1, (step ev s).2 ++ (exec evs (step ev s).1).2).
Proof.
  simpl. destruct (step ev s) as [s1 o1]. simpl. by destruct (exec evs s1).
Qed.

Lemma queue_exec_app (evs1 evs2 : list (event V)) s :
  exec (evs1 ++ evs2) s
  = ((exec evs2 (exec evs1 s).1).1,
     (exec evs1 s).2 ++ (exec evs2 (exec evs1 s).1).2).
Proof.
  revert s. induction evs1 as [|ev evs1 IH]; intros s.
  - simpl. by destruct (exec evs2 s).
  - rewrite <- app_comm_cons, !queue_exec_cons, IH. simpl. by rewrite app_assoc.
Qed.

Lemma drain (way_of : job → way V) (q : list job) :
  ∀ all done j s,
    inv all done (Some j) s → queue s = q →
    let r := exec (map (λ k, settle_event k (way_of k)) (j :: q)) s in
    deliveries r.2 = map (λ k, (k, result k (way_of k))) (j :: q) ∧
    one_at_a_time (Some j) r.2 = true ∧
    queue r.1 = [] ∧ processing r.1 = false.
Proof.
  induction q as [|k q IH]; intros all done j s Hinv Hq r; subst r;
    cbn [map]; rewrite queue_exec_cons, (step_settle _ _ _ _ (way_of j) Hinv);
    destruct (inv_settle _ _ _ _ (result j (way_of j)) Hinv)
      as (s' & -> & Hinv' & Hq'); rewrite Hq in *; simpl in Hinv', Hq'.
  - simpl. rewrite bool_decide_eq_true_2 by done.
    destruct Hinv' as (Hp & _). by rewrite Hp.
  - specialize (IH _ _ _ _ Hinv' Hq'). cbn [map] in IH.
    cbn [fst snd head from_option].
    destruct (exec _ s') as [s2 o2]. simpl in *.
    destruct IH as (Hd & Ho & Hqq & Hp).
    rewrite bool_decide_eq_true_2 by done. simpl.
    split_and!; try done. by rewrite Hd.
Qed.

Lemma filter_none {A} (P : A → Prop) `{∀ x, Decision (P x)} (l : list A) :
  (∀ x, x ∈ l → ¬ P x) → filter P l = [].
Proof.
  induction l as [|x l IH]; intros Hl; [done|].
  rewrite filter_cons_False by (apply Hl; left).
  apply IH. intros y Hy. apply Hl. by right.
Qed.

(** In a list of deliveries numbered by position, one job occurs once. *)
Lemma filter_numbered (D : list (job * outcome V)) id d :
  (∀ i x, D !! i = Some x → fn x.1 = i) → D !! id = Some d →
  filter (λ x, fn x.1 = id) D = [d].
Proof.
  intros Hnum Hd.
  rewrite <- (take_drop_middle D id d Hd), filter_app, filter_cons_True
    by (by apply Hnum).
  rewrite !filter_none; [done| |].
  - intros x Hx. apply list_elem_of_lookup in Hx as [i Hi].
    rewrite lookup_drop in Hi. apply Hnum in Hi. lia.
  - intros x Hx. apply list_elem_of_lookup in Hx as [i Hi].
    pose proof (lookup_lt_Some _ _ _ Hi) as Hlt.
    rewrite lookup_take_lt in Hi.
    + apply Hnum in Hi. rewrite length_take in Hlt. lia.
    + rewrite length_take in Hlt. lia.
Qed.

Lemma inv_done_numbered all done cur s :
  inv all done cur s → ∀ i x, done !! i = Some x → fn x.1 = i.
Proof.
  intros (_ & _ & Hall & Hn & _) i x Hx. apply Hn. rewrite <- Hall.
  apply lookup_app_l_Some. by rewrite list_lookup_fmap, Hx.
Qed.

Lemma one_at_a_time_app c (o1 o2 : list (output V)) :
  one_at_a_time c (o1 ++ o2)
  = one_at_a_time c o1 && one_at_a_time (in_flight c o1) o2.
Proof.
  revert c. induction o1 as [|[j|j o] o1 IH]; intros c; simpl; [done| |].
  - destruct c; [done|]. apply IH.
  - destruct c; [|done]. rewrite IH. by rewrite andb_assoc.
Qed.

Lemma inv_run_done all done cur s i d :
  inv all done cur s → done !! i = Some d →
  runs s !! i = Some (Run d.1 true false).
Proof.
  intros (_ & _ & _ & _ & _ & Hruns) Hd. rewrite Hruns.
  pose proof (lookup_lt_Some _ _ _ Hd) as Hlt.
  rewrite lookup_app_l by (by rewrite length_fmap).
  rewrite list_lookup_fmap, Hd. simpl. unfold run_of.
  by rewrite bool_decide_eq_true_2.
Qed.

(** C1. Jobs start in the order of their submission, the loop settles the
    running job before it starts the next one, and however each pending job
    ends (its action succeeds, its action fails, its timer fires) the loop
    goes on to deliver to every job still queued, in order, and then goes
    idle. *)
Theorem fifo_one_at_a_time (evs : list (event V)) (way_of : job → way V) :
  let s := (exec evs init).1 in
  let outs := (exec evs init).2 in
  let r := exec (map (λ j, settle_event j (way_of j)) (pending s outs)) s in
  started outs ++ queue s = jobs_of evs ∧
  (deliveries outs).*1 ++ pending s outs = jobs_of evs ∧
  one_at_a_time None (outs ++ r.2) = true ∧
  deliveries r.2 = map (λ j, (j, result j (way_of j))) (pending s outs) ∧
  queue r.1 = [] ∧ processing r.1 = false.
Proof.
  intros s outs r. subst s outs r.
  destruct (reachable_inv evs) as (done & cur & Hinv & ->).
  unfold pending.
  rewrite started_trace_of, deliveries_trace_of, in_flight_trace_of.
  rewrite one_at_a_time_app, one_at_a_time_trace_of, in_flight_trace_of.
  pose proof Hinv as (Hp & Hq & Hall & _).
  split; [by rewrite <- app_assoc|]. split; [done|].
  destruct cur as [j|].
  - cbn [option_list app].
    by destruct (drain way_of _ _ _ _ _ Hinv eq_refl) as (? & ? & ? & ?).
  - rewrite Hq by done. simpl. by rewrite Hq, Hp.
Qed.

(** C2. When the timer of a job fires before its action has settled, the
    job is failed with the error [Job timed out after {ms}ms], the next
    queued job starts in the same turn, and whatever happens afterwards
    (the action settling at last, the timer again) that failure stays the
    only outcome ever delivered for the job. *)
Theorem timeout_delivered_once (evs evs' : list (event V)) (id : nat)
    (r : run) :
  let s := (exec evs init).1 in
  runs s !! id = Some r → finished r = false →
  let timeout : outcome V :=
    Failure (Error ("Job timed out after "
                    +:+ pretty (timeoutMs (owner r)) +:+ "ms")) in
  let t := step (TimerFires id) s in
  fn (owner r) = id ∧
  t.2 = Delivered (owner r) timeout
        :: from_option (λ k, [Started k]) [] (head (queue s)) ∧
  (∀ o : outcome V, step (ActionSettles id o) t.1 = (t.1, [])) ∧
  filter (λ d, fn d.1 = id)
         (deliveries ((exec evs init).2 ++ t.2 ++ (exec evs' t.1).2))
  = [(owner r, timeout)].
Proof.
  intros s Hr Hf timeout t. subst s t.
  destruct (reachable_inv evs) as (done & cur & Hinv & Htr).
  destruct (inv_run_unfinished _ _ _ _ _ _ Hinv Hr Hf) as (-> & Hfn & Hrun).
  pose proof (inv_fn_cur _ _ _ _ Hinv) as Hlen.
  destruct (inv_settle _ _ _ _ timeout Hinv) as (s' & Hs' & Hinv' & _).
  assert (step (TimerFires id) (exec evs init).1
          = (s', Delivered (owner r) timeout
                 :: from_option (λ k, [Started k]) []
                      (head (queue (exec evs init).1)))) as Hstep.
  { simpl. unfold timer_fires. rewrite Hr, Hrun. simpl. rewrite <- Hfn.
    apply Hs'. }
  rewrite Hstep. simpl.
  assert ((done ++ [(owner r, timeout)]) !! id = Some (owner r, timeout))
    as Hid.
  { rewrite lookup_app_r by lia. replace (id - length done) with 0 by lia.
    done. }
  split_and!; [done|done| |].
  - intros o. unfold action_settles.
    by rewrite (inv_run_done _ _ _ _ _ _ Hinv' Hid).
  - destruct (inv_exec evs' _ _ _ _ Hinv') as (done2 & cur2 & Hinv2 & Htr2).
    match goal with
    | |- filter _ ?l = _ => assert (l = done2) as ->
    end.
    { rewrite <- (deliveries_trace_of done2 cur2), Htr2.
      rewrite (app_comm_cons _ _ (Delivered (owner r) timeout)).
      rewrite !deliveries_app, !deliveries_trace_of, Htr,
        deliveries_trace_of.
      rewrite <- app_assoc. do 2 f_equal. by destruct (head _). }
    apply filter_numbered; [by eapply inv_done_numbered|].
    apply (f_equal deliveries) in Htr2.
    rewrite deliveries_app, !deliveries_trace_of in Htr2. rewrite Htr2.
    by apply lookup_app_l_Some.
Qed.

End Facts.

(** Three jobs, the first of which fails: the other two are still run, in
    order, when their timers are left to fire. *)
Lemma fifo_one_at_a_time_witness :
  started (exec [Enqueue (V:=nat) None; Enqueue (Some 45000%N); Enqueue None;
                 ActionSettles 0 (Failure (Error "boom"))] init).2
  ++ queue (exec [Enqueue (V:=nat) None; Enqueue (Some 45000%N); Enqueue None;
                  ActionSettles 0 (Failure (Error "boom"))] init).1
  = [Job 0 30000; Job 1 45000; Job 2 30000] ∧
  deliveries
    (exec (map (λ j, settle_event (V:=nat) j ByTimer)
             (pending
                (exec [Enqueue (V:=nat) None; Enqueue (Some 45000%N);
                       Enqueue None;
                       ActionSettles 0 (Failure (Error "boom"))] init).1
                (exec [Enqueue (V:=nat) None; Enqueue (Some 45000%N);
                       Enqueue None;
                       ActionSettles 0 (Failure (Error "boom"))] init).2))
       (exec [Enqueue (V:=nat) None; Enqueue (Some 45000%N); Enqueue None;
              ActionSettles 0 (Failure (Error "boom"))] init).1).2
  = [(Job 1 45000, Failure (Error "Job timed out after 45000ms"));
     (Job 2 30000, Failure (Error "Job timed out after 30000ms"))].
Proof.
  pose proof (fifo_one_at_a_time
                [Enqueue (V:=nat) None; Enqueue (Some 45000%N); Enqueue None;
                 ActionSettles 0 (Failure (Error "boom"))]
                (λ _, ByTimer)) as (H1 & _ & _ & H4 & _).
  split; [exact H1|exact H4].
Defined.

(** A run of the queue on which C2 is exercised: two jobs, the timer of the
    first fires, and afterwards its action settles and its timer is tried
    again. *)
Lemma timeout_delivered_once_witness :
  runs (exec [Enqueue (V:=nat) (Some 45000%N); Enqueue None] init).1 !! 0
  = Some (Run (Job 0 45000) false true) ∧
  (step (V:=nat) (TimerFires 0)
     (exec [Enqueue (V:=nat) (Some 45000%N); Enqueue None] init).1).2
  = [Delivered (Job 0 45000)
       (Failure (Error "Job timed out after 45000ms"));
     Started (Job 1 30000)] ∧
  filter (λ d, fn d.1 = 0)
    (deliveries
       ((exec [Enqueue (V:=nat) (Some 45000%N); Enqueue None] init).2
        ++ (step (V:=nat) (TimerFires 0)
              (exec [Enqueue (V:=nat) (Some 45000%N); Enqueue None]
                 init).1).2
        ++ (exec [ActionSettles 0 (Success 7); TimerFires 0]
              (step (V:=nat) (TimerFires 0)
                 (exec [Enqueue (V:=nat) (Some 45000%N); Enqueue None]
                    init).1).1).2))
  = [(Job 0 45000, Failure (Error "Job timed out after 45000ms"))].
Proof.
  assert (runs (exec [Enqueue (V:=nat) (Some 45000%N); Enqueue None]
                  init).1 !! 0
          = Some (Run (Job 0 45000) false true)) as Hr by reflexivity.
  pose proof (timeout_delivered_once
                [Enqueue (V:=nat) (Some 45000%N); Enqueue None]
                [ActionSettles 0 (Success 7); TimerFires 0]
                0 (Run (Job 0 45000) false true) Hr eq_refl)
    as (_ & H2 & _ & H4).
  split_and!; [exact Hr|exact H2|exact H4].
Defined.

(** *** More on the loop and the race *)

Section More.
Context {V : Type}.
Implicit Types (s : state) (j : job).
Implicit Types (done : list (job * outcome V)) (o : outcome V).

(** However the race of the running job ends, the other side of the race is
    dead afterwards. *)
Lemma settled_is_deaf all done (cur : option job) s id d :
  inv all done cur s → done !! id = Some d →
  step (V:=V) (TimerFires id) s = (s, []) ∧
  ∀ o, step (ActionSettles id o) s = (s, []).
Proof.
  intros Hinv Hd. pose proof (inv_run_done _ _ _ _ _ _ Hinv Hd) as Hr.
  split; [|intros o]; simpl; unfold timer_fires, action_settles;
    by rewrite Hr.
Qed.

(** X1. When the action of the running job settles before the timer fires, the
    job gets the outcome of the action, the next queued job starts in the
    same turn, the timer is cleared (its callback never runs) and that
    outcome stays the only one delivered for the job. *)
Theorem action_settles_first (evs evs' : list (event V)) (id : nat)
    (r : run) (o : outcome V) :
  let s := (exec evs init).1 in
  runs s !! id = Some r → finished r = false →
  let t := step (ActionSettles id o) s in
  t.2 = Delivered (owner r) o
        :: from_option (λ k, [Started k]) [] (head (queue s)) ∧
  runs t.1 !! id = Some (Run (owner r) true false) ∧
  step (V:=V) (TimerFires id) t.1 = (t.1, []) ∧
  filter (λ d, fn d.1 = id)
         (deliveries ((exec evs init).2 ++ t.2 ++ (exec evs' t.1).2))
  = [(owner r, o)].
Proof.
  intros s Hr Hf t. subst s t.
  destruct (reachable_inv evs) as (done & cur & Hinv & Htr).
  destruct (inv_run_unfinished _ _ _ _ _ _ Hinv Hr Hf) as (-> & Hfn & Hrun).
  pose proof (inv_fn_cur _ _ _ _ Hinv) as Hlen.
  destruct (inv_settle _ _ _ _ o Hinv) as (s' & Hs' & Hinv' & _).
  assert (step (ActionSettles id o) (exec evs init).1
          = (s', Delivered (owner r) o
                 :: from_option (λ k, [Started k]) []
                      (head (queue (exec evs init).1)))) as Hstep.
  { simpl. unfold action_settles. rewrite Hr, Hf. rewrite <- Hfn at 1.
    apply Hs'. }
  rewrite Hstep. simpl.
  assert ((done ++ [(owner r, o)]) !! id = Some (owner r, o)) as Hid.
  { rewrite lookup_app_r by lia. by replace (id - length done) with 0 by lia. }
  split_and!; [done| | |].
  - apply (inv_run_done _ _ _ _ _ _ Hinv' Hid).
  - apply (settled_is_deaf _ _ _ _ _ _ Hinv' Hid).
  - destruct (inv_exec evs' _ _ _ _ Hinv') as (done2 & cur2 & Hinv2 & Htr2).
    match goal with
    | |- filter _ ?l = _ => assert (l = done2) as ->
    end.
    { rewrite <- (deliveries_trace_of done2 cur2), Htr2.
      rewrite (app_comm_cons _ _ (Delivered (owner r) o)).
      rewrite !deliveries_app, !deliveries_trace_of, Htr,
        deliveries_trace_of.
      rewrite <- app_assoc. do 2 f_equal. by destruct (head _). }
    apply filter_numbered; [by eapply inv_done_numbered|].
    apply (f_equal deliveries) in Htr2.
    rewrite deliveries_app, !deliveries_trace_of in Htr2. rewrite Htr2.
    by apply lookup_app_l_Some.
Qed.

(** X2. In every state the loop can reach: work in the queue means the loop is
    running; the loop is running exactly when one race is pending; a timer
    is armed exactly while its race is pending, so at most one timer is
    armed at any time. *)
Theorem loop_never_sleeps_on_work (evs : list (event V)) :
  let s := (exec evs init).1 in
  (queue s ≠ [] → processing s = true) ∧
  (processing s = true ↔
   ∃ id r, runs s !! id = Some r ∧ finished r = false) ∧
  (∀ id r, runs s !! id = Some r → timer r = negb (finished r)) ∧
  (∀ id1 r1 id2 r2,
     runs s !! id1 = Some r1 → timer r1 = true →
     runs s !! id2 = Some r2 → timer r2 = true → id1 = id2).
Proof.
  intros s. subst s.
  destruct (reachable_inv evs) as (done & cur & Hinv & _).
  pose proof Hinv as (Hp & Hq & Hall & Hn & Hsub & Hruns).
  assert (∀ id r, runs (exec evs init).1 !! id = Some r →
                  timer r = negb (finished r)) as Htimer.
  { intros id r Hr. rewrite Hruns in Hr.
    by apply fmap_Some in Hr as (j & _ & ->). }
  split_and!.
  - intros Hne. rewrite Hp. destruct cur; [done|]. by destruct Hne; apply Hq.
  - rewrite Hp. split.
    + intros Hc. apply bool_decide_eq_true in Hc as [j ->].
      exists (fn j), (Run j false true). split; [|done].
      by eapply inv_run_cur.
    + intros (id & r & Hr & Hf).
      destruct (inv_run_unfinished _ _ _ _ _ _ Hinv Hr Hf) as (-> & _).
      by apply bool_decide_eq_true.
  - done.
  - intros id1 r1 id2 r2 Hr1 Ht1 Hr2 Ht2.
    assert (finished r1 = false) as Hf1.
    { apply Htimer in Hr1. rewrite Ht1 in Hr1. by destruct (finished r1). }
    assert (finished r2 = false) as Hf2.
    { apply Htimer in Hr2. rewrite Ht2 in Hr2. by destruct (finished r2). }
    destruct (inv_run_unfinished _ _ _ _ _ _ Hinv Hr1 Hf1) as (Hc1 & <- & _).
    destruct (inv_run_unfinished _ _ _ _ _ _ Hinv Hr2 Hf2) as (Hc2 & <- & _).
    congruence.
Qed.

(** X3. A job submitted while the loop is idle is the one that starts, at once
    and with the budget given (30000 ms when none is); a job submitted
    while the loop is running only joins the back of the queue. *)
Theorem enqueue_starts_or_waits (evs : list (event V)) (opts : option N) :
  let s := (exec evs init).1 in
  let j := Job (length (jobs_of evs)) (default 30000%N opts) in
  let t := step (V:=V) (Enqueue opts) s in
  (processing s = false →
   t.2 = [Started j] ∧ queue t.1 = [] ∧ processing t.1 = true ∧
   runs t.1 !! fn j = Some (Run j false true)) ∧
  (processing s = true →
   t.2 = [] ∧ queue t.1 = queue s ++ [j] ∧ runs t.1 = runs s).
Proof.
  intros s j t. subst s j t.
  destruct (reachable_inv evs) as (done & cur & Hinv & _).
  pose proof Hinv as (Hp & Hq & Hall & Hn & Hsub & Hruns).
  destruct (inv_enqueue _ _ _ _ opts Hinv) as (s' & Hs' & Hinv').
  simpl. split; intros Hproc.
  - rewrite Hproc in Hp. destruct cur as [k|]; [done|].
    unfold enqueue, _process, loop, _runWithTimeout. simpl.
    rewrite Hproc, Hsub, (Hq eq_refl). simpl.
    by rewrite lookup_insert_eq.
  - unfold enqueue, _process. simpl. by rewrite Hproc, Hsub.
Qed.

End More.

Lemma action_settles_first_witness :
  runs (exec [Enqueue (V:=nat) (Some 45000%N); Enqueue None] init).1 !! 0
  = Some (Run (Job 0 45000) false true) ∧
  (step (V:=nat) (ActionSettles 0 (Success 7))
     (exec [Enqueue (V:=nat) (Some 45000%N); Enqueue None] init).1).2
  = [Delivered (Job 0 45000) (Success 7); Started (Job 1 30000)].
Proof.
  assert (runs (exec [Enqueue (V:=nat) (Some 45000%N); Enqueue None]
                  init).1 !! 0
          = Some (Run (Job 0 45000) false true)) as Hr by reflexivity.
  split; [exact Hr|].
  exact (proj1 (action_settles_first
                  [Enqueue (V:=nat) (Some 45000%N); Enqueue None] []
                  0 (Run (Job 0 45000) false true) (Success 7)
                  Hr eq_refl)).
Defined.

Lemma loop_never_sleeps_on_work_witness :
  queue (exec [Enqueue (V:=nat) None; Enqueue None] init).1 ≠ [] ∧
  processing (exec [Enqueue (V:=nat) None; Enqueue None] init).1 = true.
Proof.
  assert (queue (exec [Enqueue (V:=nat) None; Enqueue None] init).1 ≠ [])
    as Hq by discriminate.
  split; [exact Hq|].
  exact (proj1 (loop_never_sleeps_on_work
                  [Enqueue (V:=nat) None; Enqueue None]) Hq).
Defined.

Lemma enqueue_starts_or_waits_witness :
  processing (exec (V:=nat) [] init).1 = false ∧
  (step (V:=nat) (Enqueue (Some 120000%N)) (exec (V:=nat) [] init).1).2
  = [Started (Job 0 120000)].
Proof.
  split; [reflexivity|].
  exact (proj1 (proj1 (enqueue_starts_or_waits (V:=nat) []
                         (Some 120000%N)) eq_refl)).
Defined.

End TaskQueueFacts.

Module SessionFacts.
Import Session.

Lemma next_index_in_pool (sessionIds : list string) (i : nat) :
  sessionIds ≠ [] → (i + 1) `mod` length sessionIds < length sessionIds.
Proof.
  intros Hne. apply Nat.mod_upper_bound. by destruct sessionIds.
Qed.

Lemma failover_unfold sessionIds P s :
  failover sessionIds P s
  = let heap1 := match client s with
                 | Some h => alter mark_destroy h (heap s)
                 | None => heap s
                 end in
    let i := (currentSessionIndex s + 1) `mod` length sessionIds in
    State i (Some (length (heap s)))
          (heap1 ++ [MkClient (sessionIds !! i)
                       [Qr; LoadingScreen; Ready; AuthFailure; Disconnected;
                        Message]
                       true true false false])
          (serverListening s).
Proof.
  unfold failover, try_log, destroy, initialize, createClient, update.
  destruct (client s) as [h|]; simpl.
  - rewrite !length_alter. f_equal.
    rewrite !alter_app_r_alt by (rewrite length_alter; lia).
    by rewrite length_alter, Nat.sub_diag.
  - f_equal. rewrite !alter_app_r_alt by lia. by rewrite Nat.sub_diag.
Qed.



Section PoolFacts.
Variable sessionIds : list string.
Variable P : provider.

Local Abbreviation failover := (failover sessionIds P).
Local Abbreviation boot := (boot sessionIds P).
Local Abbreviation step := (step sessionIds P).
Local Abbreviation exec := (exec sessionIds P).
Local Abbreviation listen_calls := (listen_calls sessionIds P).
Local Abbreviation live := (live sessionIds).

Lemma failover_iter_S k s :
  Nat.iter (S k) failover s = failover (Nat.iter k failover s).
Proof. done. Qed.

(** X4. Round robin.  From a state whose index is inside the pool, [k] calls of
    [failover()] leave the index at [(i + k) mod n], build [k] clients, and
    the current client is the one built last, for the identity at that
    index; a full round of [n] calls comes back to the identity it started
    from. *)
Theorem failover_round_robin (s : state) :
  currentSessionIndex s < length sessionIds →
  (∀ k,
     currentSessionIndex (Nat.iter k failover s)
     = (currentSessionIndex s + k) `mod` length sessionIds ∧
     length (heap (Nat.iter k failover s)) = length (heap s) + k ∧
     (0 < k →
      ∃ c, client (Nat.iter k failover s) = Some (length (heap s) + k - 1) ∧
           heap (Nat.iter k failover s) !! (length (heap s) + k - 1)
           = Some c ∧
           clientId c
           = sessionIds !! ((currentSessionIndex s + k)
                              `mod` length sessionIds) ∧
           destroy_called c = false ∧ ready c = false)) ∧
  currentSessionIndex (Nat.iter (length sessionIds) failover s)
  = currentSessionIndex s.
Proof.
  intros Hi.
  assert (length sessionIds ≠ 0) as Hn by lia.
  assert (∀ k,
     currentSessionIndex (Nat.iter k failover s)
     = (currentSessionIndex s + k) `mod` length sessionIds ∧
     length (heap (Nat.iter k failover s)) = length (heap s) + k) as Hk.
  { induction k as [|k [IH1 IH2]].
    - simpl. rewrite Nat.add_0_r, Nat.mod_small by done. lia.
    - rewrite failover_iter_S, failover_unfold. simpl.
      rewrite IH1, Nat.Div0.add_mod_idemp_l.
      split; [f_equal; lia|].
      rewrite length_app. simpl.
      destruct (client _); rewrite ?length_alter; lia. }
  split.
  - intros k. destruct (Hk k) as [H1 H2]. split_and!; [done|done|].
    intros Hpos. destruct k as [|k]; [lia|].
    destruct (Hk k) as [H3 H4].
    rewrite failover_iter_S, failover_unfold. simpl.
    eexists. split_and!.
    + f_equal. lia.
    + rewrite lookup_app_r.
      * replace (length (heap s) + S k - 1
                 - length (match client (Nat.iter k failover s) with
                           | Some h => alter mark_destroy h
                                         (heap (Nat.iter k failover s))
                           | None => heap (Nat.iter k failover s)
                           end)) with 0; [done|].
        destruct (client _); rewrite ?length_alter; lia.
      * destruct (client _); rewrite ?length_alter; lia.
    + simpl. rewrite H3, Nat.Div0.add_mod_idemp_l.
      do 2 f_equal. lia.
    + done.
    + done.
  - destruct (Hk (length sessionIds)) as [-> _].
    rewrite <- (Nat.mul_1_l (length sessionIds)) at 1.
    rewrite Nat.Div0.mod_add. by apply Nat.mod_small.
Qed.

Lemma current_is_last_boot : current_is_last boot.
Proof. by exists 0. Qed.

Lemma current_is_last_failover s : current_is_last (failover s).
Proof.
  rewrite failover_unfold. exists (length (heap s)). simpl.
  split; [done|]. rewrite length_app. simpl.
  destruct (client s); rewrite ?length_alter; lia.
Qed.

Lemma current_is_last_step ev s :
  current_is_last s → current_is_last (step ev s).
Proof.
  intros Hs. destruct ev as [h sig|h e]; [|done].
  unfold Session.step, emit. destruct (heap s !! h) as [c|] eqn:Eh; [|done].
  destruct (bool_decide _); [|done].
  destruct sig; try done.
  - unfold on_ready. rewrite Eh. destruct Hs as (h0 & Hc & Hl).
    exists h0. destruct (once_ready c); simpl; by rewrite length_alter.
  - apply current_is_last_failover.
Qed.

Lemma live_boot : sessionIds ≠ [] → live boot.
Proof.
  intros Hne. unfold Session.live, Session.boot. simpl.
  split; [destruct sessionIds; [done|simpl; lia]|].
  eexists 0, _. split_and!; try done.
  - intros h' c' Hlt. lia.
  - intros [|h'] c'; simpl; [|done]. by intros [= <-].
Qed.

Lemma live_failover s : sessionIds ≠ [] → live s → live (failover s).
Proof.
  intros Hne (Hi & h & c & Hc & Hlen & Hh & Hid & Hd & Hold & Hall).
  rewrite failover_unfold, Hc. simpl.
  unfold Session.live. simpl.
  split; [by apply next_index_in_pool|].
  eexists (length (heap s)), _. split_and!.
  - done.
  - rewrite length_app, length_alter. simpl. lia.
  - rewrite lookup_app_r by (rewrite length_alter; lia).
    by rewrite length_alter, Nat.sub_diag.
  - done.
  - done.
  - intros h' c' Hlt. rewrite lookup_app_l by (rewrite length_alter; lia).
    destruct (decide (h' = h)) as [->|Hneq].
    + rewrite list_lookup_alter_eq, Hh. by intros [= <-].
    + rewrite list_lookup_alter_ne by done. apply Hold. lia.
  - intros h' c'. destruct (decide (h' < length (heap s))) as [Hlt|Hge].
    + rewrite lookup_app_l by (rewrite length_alter; lia).
      destruct (decide (h' = h)) as [->|Hneq].
      * rewrite list_lookup_alter_eq, Hh. intros [= <-].
        by destruct (Hall _ _ Hh).
      * rewrite list_lookup_alter_ne by done. apply Hall.
    + rewrite lookup_app_r by (rewrite length_alter; lia).
      rewrite length_alter.
      destruct (h' - length (heap s)) as [|n] eqn:E; simpl; [|done].
      by intros [= <-].
Qed.

Lemma live_on_ready h0 s : live s → live (on_ready h0 s).
Proof.
  intros (Hi & h & c & Hc & Hlen & Hh & Hid & Hd & Hold & Hall).
  unfold on_ready. destruct (heap s !! h0) as [c0|] eqn:E0.
  2:{ unfold Session.live. eauto 12. }
  assert (live (update h0 mark_ready s)) as Hlive.
  { unfold Session.live, update. simpl. split; [done|].
    destruct (decide (h0 = h)) as [->|Hneq].
    - exists h, (mark_ready c). split_and!; try done.
      + by rewrite length_alter.
      + by rewrite list_lookup_alter_eq, Hh.
      + intros h' c' Hlt. rewrite list_lookup_alter_ne by lia. by apply Hold.
      + intros h' c'. destruct (decide (h' = h)) as [->|Hneq].
        * rewrite list_lookup_alter_eq, Hh. intros [= <-].
          by destruct (Hall _ _ Hh).
        * rewrite list_lookup_alter_ne by done. apply Hall.
    - exists h, c. split_and!; try done.
      + by rewrite length_alter.
      + by rewrite list_lookup_alter_ne.
      + intros h' c' Hlt. destruct (decide (h' = h0)) as [->|Hneq'].
        * rewrite list_lookup_alter_eq, E0. intros [= <-]. simpl.
          by eapply Hold.
        * rewrite list_lookup_alter_ne by done. by apply Hold.
      + intros h' c'. destruct (decide (h' = h0)) as [->|Hneq'].
        * rewrite list_lookup_alter_eq, E0. intros [= <-].
          by destruct (Hall _ _ E0).
        * rewrite list_lookup_alter_ne by done. apply Hall. }
  by destruct (once_ready c0).
Qed.

Lemma live_step ev s : sessionIds ≠ [] → live s → live (step ev s).
Proof.
  intros Hne Hlive. destruct ev as [h sig|h e]; [|done].
  unfold Session.step, emit. destruct (heap s !! h); [|done].
  destruct (bool_decide _); [|done].
  destruct sig; try done.
  - by apply live_on_ready.
  - by apply live_failover.
Qed.

(** X5. One live session.  Whatever the provider emits, in any order and on any
    client, old or current: the current client is the one built last, it is
    the client of the identity the index points at and has not been
    destroyed, every client built before it has been destroyed, and every
    client ever built has its six handlers and had [initialize()] called. *)
Theorem one_live_session (evs : list event) :
  sessionIds ≠ [] → live (exec evs boot).
Proof.
  intros Hne. generalize (live_boot Hne). generalize boot.
  induction evs as [|ev evs IH]; intros s Hs; [done|].
  simpl. apply IH. by apply live_step.
Qed.

Lemma listen_calls_from s evs :
  listen_calls evs s ≤ (if serverListening s then 0 else 1) ∧
  serverListening (exec evs s)
  = serverListening s || bool_decide (listen_calls evs s = 1).
Proof.
  revert s. induction evs as [|ev evs IH]; intros s.
  { simpl. split; [lia|]. by rewrite orb_false_r. }
  cbn [Session.listen_calls Session.exec].
  destruct (IH (step ev s)) as [IH1 IH2]. rewrite IH2. clear IH IH2.
  destruct ev as [h sig|h e]; [|by simpl].
  destruct (decide (sig = Ready)) as [->|Hr].
  - simpl in *. unfold emit, on_ready in *.
    destruct (heap s !! h) as [c|] eqn:Eh; [|done].
    destruct (bool_decide (Ready ∈ on c)); simpl; [|done].
    destruct (once_ready c), (serverListening s) eqn:El; simpl in *;
      rewrite ?El in *; simpl in *; try done.
    split; [lia|].
    by replace (listen_calls evs _) with 0 by lia.
  - assert (listens (Emit h sig) s = 0) as -> by by destruct sig.
    assert (serverListening (step (Emit h sig) s) = serverListening s) as E.
    { simpl. unfold emit. destruct (heap s !! h); [|done].
      destruct (bool_decide _); [|done].
      destruct sig; try done. by rewrite failover_unfold. }
    rewrite E in *. done.
Qed.

(** X6. The port is bound at most once.  Over any sequence of provider events
    after start-up, however many clients become ready and however many
    failovers happen in between, [app.listen] is called at most once, and
    [serverListening] is set exactly when it has been called. *)
Theorem listen_at_most_once (evs : list event) :
  listen_calls evs boot ≤ 1 ∧
  (serverListening (exec evs boot) = true ↔ listen_calls evs boot = 1).
Proof.
  destruct (listen_calls_from boot evs) as [H1 H2].
  split; [exact H1|]. rewrite H2. simpl.
  by rewrite bool_decide_eq_true.
Qed.

End PoolFacts.

Lemma failover_round_robin_witness :
  currentSessionIndex
    (Nat.iter 2 (failover ["numero1"; "numero2"]
                   (Provider (λ _, None) (λ _, None)))
       (boot ["numero1"; "numero2"] (Provider (λ _, None) (λ _, None))))
  = currentSessionIndex
      (boot ["numero1"; "numero2"] (Provider (λ _, None) (λ _, None))).
Proof.
  refine (proj2 (failover_round_robin ["numero1"; "numero2"]
                   (Provider (λ _, None) (λ _, None))
                   (boot ["numero1"; "numero2"]
                      (Provider (λ _, None) (λ _, None))) _)).
  simpl. lia.
Defined.

Lemma one_live_session_witness :
  live ["numero1"; "numero2"]
    (exec ["numero1"; "numero2"] (Provider (λ _, None) (λ _, None))
       [Emit 0 Ready; Emit 0 Disconnected; Emit 0 Ready; Emit 1 Ready]
       (boot ["numero1"; "numero2"] (Provider (λ _, None) (λ _, None)))).
Proof.
  apply (one_live_session ["numero1"; "numero2"]
           (Provider (λ _, None) (λ _, None))
           [Emit 0 Ready; Emit 0 Disconnected; Emit 0 Ready; Emit 1 Ready]).
  discriminate.
Defined.

End SessionFacts.

Module SenderFacts.
Import Sender.

Section Facts.
Context {V : Type}.
Variable sessionIds : list string.
Variable P : Session.provider.

Local Abbreviation step := (step (V:=V) sessionIds P).
Local Abbreviation exec := (exec (V:=V) sessionIds P).
Local Abbreviation boot := (boot sessionIds P).
Local Abbreviation react := (react (V:=V) sessionIds P).
Local Abbreviation settled := (settled (V:=V) sessionIds P).
Local Abbreviation next_start := (next_start (V:=V)).
Local Abbreviation qinv := (qinv (V:=V)).

Lemma failovers_app (o1 o2 : list (output V)) :
  failovers (o1 ++ o2) = failovers o1 + failovers o2.
Proof. unfold failovers. by rewrite omap_app, length_app. Qed.

Lemma thrown_app (o1 o2 : list (output V)) :
  thrown (o1 ++ o2) = thrown o1 ++ thrown o2.
Proof. unfold thrown. apply omap_app. Qed.

Lemma attempts_app (o1 o2 : list (output V)) :
  attempts (o1 ++ o2) = attempts o1 ++ attempts o2.
Proof. unfold attempts. apply omap_app. Qed.

Lemma each_cons {A} (f : A → state → state * list (output V)) x l s :
  each f (x :: l) s
  = ((each f l (f x s).1).1, (f x s).2 ++ (each f l (f x s).1).2).
Proof.
  simpl. destruct (f x s) as [s1 o1]. simpl. by destruct (each f l s1).
Qed.

(** The actions of the jobs a turn starts: no failover, nothing thrown, the
    queue and the controller untouched. *)
Lemma each_action (l : list TaskQueue.job) (s : state) :
  q (each (action (V:=V)) l s).1 = q s ∧
  ctl (each (action (V:=V)) l s).1 = ctl s ∧
  failovers (each (action (V:=V)) l s).2 = 0 ∧
  thrown (each (action (V:=V)) l s).2 = [] ∧
  attempts (each (action (V:=V)) l s).2
  = match Session.client (ctl s) with
    | Some h => (λ j, (TaskQueue.fn j, h)) <$> l
    | None => []
    end.
Proof.
  revert s. induction l as [|j l IH]; intros s.
  - simpl. by destruct (Session.client (ctl s)).
  - rewrite each_cons. cbn [fst snd].
    destruct (IH (action (V:=V) j s).1) as (H1 & H2 & H3 & H4 & H5).
    rewrite failovers_app, thrown_app, attempts_app, H1, H2, H3, H4, H5.
    unfold action. destruct (Session.client (ctl s)) as [h|] eqn:Hc;
      simpl; rewrite ?Hc; done.
Qed.

(** The continuations of the callers of the jobs a turn settles: one
    failover for each error thrown, and no attempt. *)
Lemma each_settled (l : list (TaskQueue.job * outcome V)) (s : state) :
  q (each settled l s).1 = q s ∧
  failovers (each settled l s).2 = length (thrown (each settled l s).2) ∧
  attempts (each settled l s).2 = [].
Proof.
  revert s. induction l as [|[j o] l IH]; intros s; [done|].
  rewrite each_cons. cbn [fst snd].
  destruct (IH (settled (j, o) s).1) as (H1 & H2 & H3).
  rewrite failovers_app, thrown_app, attempts_app, H1, H2, H3, length_app.
  unfold Sender.settled. by destruct o.
Qed.

Lemma react_facts (r : TaskQueue.state * list (TaskQueue.output V))
    (s : state) :
  q (react r s).1 = r.1 ∧
  failovers (react r s).2 = length (thrown (react r s).2) ∧
  attempts (react r s).2
  = match Session.client (ctl s) with
    | Some h => (λ j, (TaskQueue.fn j, h)) <$> TaskQueue.started r.2
    | None => []
    end.
Proof.
  unfold Sender.react.
  pose proof (each_action (TaskQueue.started r.2)
                (State r.1 (ctl s) (acts s))) as Ha.
  destruct (each action _ _) as [s1 o1]. simpl in Ha.
  pose proof (each_settled (TaskQueue.deliveries r.2) s1) as Hs.
  destruct (each (Sender.settled _ _) _ _) as [s2 o2]. simpl in *.
  destruct Ha as (Hq1 & Hc1 & Hf1 & Ht1 & Ha1).
  destruct Hs as (Hq2 & Hf2 & Ha2).
  rewrite failovers_app, thrown_app, attempts_app, Hf1, Ht1, Ha1, Ha2, Hf2.
  rewrite Hq2, Hq1, app_nil_r. done.
Qed.

Import TaskQueueFacts.

Lemma qinv_queue_step (ev : TaskQueue.event V) (s : state) :
  qinv s → qinv (react (TaskQueue.step ev (q s)) s).1.
Proof.
  intros (all & done & cur & Hinv).
  destruct (inv_step _ _ _ _ ev Hinv) as (done' & cur' & Hinv' & _).
  destruct (react_facts (TaskQueue.step ev (q s)) s) as (Hq & _).
  eexists _, done', cur'. rewrite Hq. exact Hinv'.
Qed.

Lemma qinv_step (ev : event V) (s : state) : qinv s → qinv (step ev s).1.
Proof.
  intros Hinv. destruct ev as [opts|id o|id|id|pev]; simpl.
  - apply (qinv_queue_step (TaskQueue.Enqueue opts) _ Hinv).
  - destruct (acts s !! id) as [[h|]|]; [|done|done].
    apply (qinv_queue_step (TaskQueue.ActionSettles id o) _ Hinv).
  - destruct (acts s !! id) as [[h|]|]; [done| |done].
    apply (qinv_queue_step
             (TaskQueue.ActionSettles id (Failure no_client)) _ Hinv).
  - apply (qinv_queue_step (TaskQueue.TimerFires id) _ Hinv).
  - done.
Qed.

Lemma sender_exec_cons (ev : event V) evs s :
  exec (ev :: evs) s
  = ((exec evs (step ev s).1).1, (step ev s).2 ++ (exec evs (step ev s).1).2).
Proof.
  simpl. destruct (Sender.step _ _ ev s) as [s1 o1]. simpl.
  by destruct (Sender.exec _ _ evs s1).
Qed.

Lemma qinv_exec (evs : list (event V)) (s : state) :
  qinv s → qinv (exec evs s).1.
Proof.
  revert s. induction evs as [|ev evs IH]; intros s Hinv; [done|].
  rewrite sender_exec_cons. simpl. by apply IH, qinv_step.
Qed.

Lemma qinv_boot : qinv boot.
Proof. exists [], [], None. apply inv_init. Qed.

(** Every step calls [failover()] once for each error it throws to a
    caller, and once more when it is a ['disconnected'] event. *)
Lemma step_counts (ev : event V) (s : state) :
  failovers (step ev s).2
  = length (thrown (step ev s).2) + disconnects s ev.
Proof.
  destruct ev as [opts|id o|id|id|pev]; simpl.
  - destruct (react_facts (TaskQueue.enqueue opts (q s)) s) as (_ & -> & _).
    lia.
  - destruct (acts s !! id) as [[h|]|]; try done.
    destruct (react_facts (TaskQueue.action_settles id o (q s)) s)
      as (_ & -> & _). lia.
  - destruct (acts s !! id) as [[h|]|]; try done.
    destruct (react_facts
                (TaskQueue.action_settles id (Failure no_client) (q s)) s)
      as (_ & -> & _). lia.
  - destruct (react_facts (TaskQueue.timer_fires id (q s)) s)
      as (_ & -> & _). lia.
  - destruct pev as [h sig|h e]; [|done].
    destruct sig; try done.
    destruct (Session.heap (ctl s) !! h) as [c|]; [|done].
    by destruct (bool_decide _).
Qed.

(** The turn in which the running job [j] is settled with [o]. *)
Lemma react_resume all (done : list (TaskQueue.job * outcome V)) j
    (o : outcome V) (s : state) :
  TaskQueue.inv all done (Some j) (q s) →
  let r := TaskQueue.resume (TaskQueue.Run j false true) o
             (TaskQueue.set_run (TaskQueue.fn j)
                (TaskQueue.Run j true false) (q s)) in
  (react r s).2
  = next_start s ++ (settled (j, o) s).2 ∧
  ctl (react r s).1 = ctl (settled (j, o) s).1.
Proof.
  intros Hinv r. subst r.
  destruct (inv_settle _ _ _ _ o Hinv) as (q' & -> & _ & _).
  unfold Sender.react, next_start. simpl.
  destruct (head (TaskQueue.queue (q s))) as [k|]; simpl.
  - unfold action, Sender.settled. simpl.
    destruct (Session.client (ctl s)) as [h|]; simpl; by destruct o.
  - unfold Sender.settled. simpl. by destruct o.
Qed.

(** C3, as the code has it.  Whenever the job a state is running is settled
    with an error, by its timer as by its action, [enqueueSendOperation]
    calls [failover()] and then throws that error to its caller; when the
    job succeeds it returns the value and calls no failover; and over any
    step there is one failover for each error thrown and one for each
    ['disconnected'] event, none else. *)
Theorem failure_runs_failover (evs : list (event V)) (id : nat)
    (r : TaskQueue.run) :
  let s := (exec evs boot).1 in
  TaskQueue.runs (q s) !! id = Some r → TaskQueue.finished r = false →
  (step (JobTimer id) s).2
  = next_start s
    ++ [Failover;
        Thrown id (Error ("Job timed out after "
                          +:+ pretty (TaskQueue.timeoutMs (TaskQueue.owner r))
                          +:+ "ms"))] ∧
  ctl (step (JobTimer id) s).1 = Session.failover sessionIds P (ctl s) ∧
  (∀ h e, acts s !! id = Some (Calling h) →
     (step (Settles id (Failure e)) s).2
     = next_start s ++ [Failover; Thrown id e] ∧
     ctl (step (Settles id (Failure e)) s).1
     = Session.failover sessionIds P (ctl s)) ∧
  (∀ h v, acts s !! id = Some (Calling h) →
     (step (Settles id (Success v)) s).2 = next_start s ++ [Returned id v] ∧
     ctl (step (Settles id (Success v)) s).1 = ctl s) ∧
  failovers (next_start s) = 0 ∧
  (∀ ev, failovers (step ev s).2
         = length (thrown (step ev s).2) + disconnects s ev).
Proof.
  intros s Hr Hf. subst s.
  destruct (qinv_exec evs _ qinv_boot) as (all & done & cur & Hinv).
  destruct (inv_run_unfinished _ _ _ _ _ _ Hinv Hr Hf) as (-> & Hfn & Hrun).
  destruct r as [j fin tm]. simpl in *. injection Hrun as -> ->. subst id.
  assert (∀ o : outcome V,
            TaskQueue.action_settles (TaskQueue.fn j) o (q (exec evs boot).1)
            = TaskQueue.resume (TaskQueue.Run j false true) o
                (TaskQueue.set_run (TaskQueue.fn j)
                   (TaskQueue.Run j true false) (q (exec evs boot).1)))
    as Hact.
  { intros o. unfold TaskQueue.action_settles. by rewrite Hr. }
  assert (TaskQueue.timer_fires (V:=V) (TaskQueue.fn j) (q (exec evs boot).1)
          = TaskQueue.resume (TaskQueue.Run j false true)
              (Failure (TaskQueue.timeout_error (TaskQueue.timeoutMs j)))
              (TaskQueue.set_run (TaskQueue.fn j)
                 (TaskQueue.Run j true false) (q (exec evs boot).1)))
    as Htim.
  { unfold TaskQueue.timer_fires. by rewrite Hr. }
  split_and!.
  - simpl. rewrite Htim.
    by destruct (react_resume _ _ _
                   (Failure (TaskQueue.timeout_error (TaskQueue.timeoutMs j)))
                   _ Hinv) as (-> & _).
  - simpl. rewrite Htim.
    by destruct (react_resume _ _ _
                   (Failure (TaskQueue.timeout_error (TaskQueue.timeoutMs j)))
                   _ Hinv) as (_ & ->).
  - intros h e Hcall. simpl. rewrite Hcall, Hact.
    by destruct (react_resume _ _ _ (Failure e) _ Hinv) as (-> & ->).
  - intros h v Hcall. simpl. rewrite Hcall, Hact.
    by destruct (react_resume _ _ _ (Success v) _ Hinv) as (-> & ->).
  - unfold Sender.next_start. destruct (head _); [|done].
    unfold action. by destruct (Session.client _).
  - intros ev. apply step_counts.
Qed.

(** *** The send path does not look at readiness *)

Lemma forget_mark_destroy c :
  forget_ready (Session.mark_destroy c)
  = Session.mark_destroy (forget_ready c).
Proof. done. Qed.

Lemma failover_blind (c : Session.state) :
  Session.failover sessionIds P (blind_ctl c)
  = blind_ctl (Session.failover sessionIds P c).
Proof.
  rewrite !SessionFacts.failover_unfold. unfold blind_ctl. simpl.
  rewrite length_fmap, fmap_app. do 2 f_equal.
  destruct (Session.client c); [|done].
  symmetry. apply list_fmap_alter, Forall_forall. by intros.
Qed.

Lemma action_blind j (s : state) :
  action (V:=V) j (blind s) = (blind (action (V:=V) j s).1, (action j s).2).
Proof. unfold action. simpl. by destruct (Session.client (ctl s)). Qed.

Lemma settled_blind d (s : state) :
  settled d (blind s) = (blind (settled d s).1, (settled d s).2).
Proof.
  unfold Sender.settled. destruct d.2; [done|]. simpl.
  unfold blind, Session.try_log. simpl. by rewrite failover_blind.
Qed.

Lemma each_blind {A} (f : A → state → state * list (output V)) l :
  (∀ x s, f x (blind s) = (blind (f x s).1, (f x s).2)) →
  ∀ s, each f l (blind s) = (blind (each f l s).1, (each f l s).2).
Proof.
  intros Hf. induction l as [|x l IH]; intros s; [done|].
  rewrite !each_cons, Hf. cbn [fst snd]. by rewrite IH.
Qed.

Lemma react_blind r (s : state) :
  react r (blind s) = (blind (react r s).1, (react r s).2).
Proof.
  unfold Sender.react.
  change (State r.1 (ctl (blind s)) (acts (blind s)))
    with (blind (State r.1 (ctl s) (acts s))).
  rewrite (each_blind _ _ action_blind).
  destruct (each action _ _) as [s1 o1]. simpl.
  rewrite (each_blind _ _ settled_blind).
  by destruct (each (Sender.settled _ _) _ _).
Qed.

Lemma forget_alter_ready h (l : list Session.Client) :
  forget_ready <$> alter Session.mark_ready h (forget_ready <$> l)
  = forget_ready <$> alter Session.mark_ready h l.
Proof.
  revert h. induction l as [|x l IH]; intros [|h]; csimpl; try done.
  - f_equal. rewrite <- list_fmap_compose. apply list_fmap_ext.
    by intros ? [].
  - f_equal. apply IH.
Qed.

Lemma forget_twice (l : list Session.Client) :
  forget_ready <$> (forget_ready <$> l) = forget_ready <$> l.
Proof.
  rewrite <- list_fmap_compose. apply list_fmap_ext. by intros ? [].
Qed.

Lemma session_step_blind ev (c : Session.state) :
  blind_ctl (Session.step sessionIds P ev (blind_ctl c))
  = blind_ctl (Session.step sessionIds P ev c).
Proof.
  destruct ev as [h sig|h e]; [|by unfold blind_ctl; simpl; rewrite forget_twice].
  simpl. unfold Session.emit. simpl. rewrite list_lookup_fmap.
  destruct (Session.heap c !! h) as [x|] eqn:Hx; simpl;
    [|by unfold blind_ctl; simpl; rewrite forget_twice].
  destruct (bool_decide (sig ∈ Session.on x));
    [|by unfold blind_ctl; simpl; rewrite forget_twice].
  destruct sig; try (by unfold blind_ctl; simpl; rewrite forget_twice).
  - unfold Session.on_ready. simpl. rewrite list_lookup_fmap, Hx. simpl.
    pose proof (forget_alter_ready h (Session.heap c)) as Hh.
    destruct (Session.once_ready x); unfold blind_ctl; simpl; by rewrite Hh.
  - rewrite failover_blind. unfold blind_ctl. simpl. by rewrite forget_twice.
Qed.

Lemma blind_blind (s : state) : blind (blind s) = blind s.
Proof. unfold blind, blind_ctl. simpl. by rewrite forget_twice. Qed.

Lemma step_blind (ev : event V) (s : state) :
  (step ev (blind s)).2 = (step ev s).2 ∧
  blind (step ev (blind s)).1 = blind (step ev s).1.
Proof.
  destruct ev as [opts|id o|id|id|pev]; simpl.
  - rewrite react_blind. simpl. by rewrite blind_blind.
  - destruct (acts s !! id) as [[h|]|]; simpl; rewrite ?blind_blind; try done.
    rewrite react_blind. simpl. by rewrite blind_blind.
  - destruct (acts s !! id) as [[h|]|]; simpl; rewrite ?blind_blind; try done.
    rewrite react_blind. simpl. by rewrite blind_blind.
  - rewrite react_blind. simpl. by rewrite blind_blind.
  - unfold provider_event. simpl. split.
    + destruct pev as [h sig|h e]; [|done]. destruct sig; try done.
      rewrite list_lookup_fmap.
      by destruct (Session.heap (ctl s) !! h).
    + unfold blind. simpl. by rewrite session_step_blind.
Qed.

Lemma exec_same (evs : list (event V)) :
  ∀ s1 s2, blind s1 = blind s2 → (exec evs s1).2 = (exec evs s2).2.
Proof.
  induction evs as [|ev evs IH]; intros s1 s2 Hb; [done|].
  rewrite !sender_exec_cons. cbn [snd].
  destruct (step_blind ev s1) as (Ho1 & Hs1).
  destruct (step_blind ev s2) as (Ho2 & Hs2).
  rewrite Hb in Ho1, Hs1. f_equal; [congruence|].
  apply IH. congruence.
Qed.

(** Whether its clients have been ready or not, a state sends the same
    things at the same moments. *)
Lemma exec_blind (evs : list (event V)) (s : state) :
  (exec evs (blind s)).2 = (exec evs s).2.
Proof. apply exec_same, blind_blind. Qed.

End Facts.

(** A concrete run, with the pool of the source and a provider that never
    throws: the server comes up, a text is sent with the budget of
    /enviar-mensaje, and the timer of the job fires. *)
Lemma failure_runs_failover_witness :
  TaskQueue.runs
    (q (exec (V:=nat) ["numero1"; "numero2"]
          (Session.Provider (λ _, None) (λ _, None))
          [ClientEvent (Session.Emit 0 Session.Ready); Send (Some 45000%N)]
          (boot ["numero1"; "numero2"]
             (Session.Provider (λ _, None) (λ _, None)))).1) !! 0
  = Some (TaskQueue.Run (TaskQueue.Job 0 45000) false true) ∧
  (step (V:=nat) ["numero1"; "numero2"]
     (Session.Provider (λ _, None) (λ _, None)) (JobTimer 0)
     (exec (V:=nat) ["numero1"; "numero2"]
        (Session.Provider (λ _, None) (λ _, None))
        [ClientEvent (Session.Emit 0 Session.Ready); Send (Some 45000%N)]
        (boot ["numero1"; "numero2"]
           (Session.Provider (λ _, None) (λ _, None)))).1).2
  = [Failover; Thrown 0 (Error "Job timed out after 45000ms")].
Proof.
  assert (TaskQueue.runs
    (q (exec (V:=nat) ["numero1"; "numero2"]
          (Session.Provider (λ _, None) (λ _, None))
          [ClientEvent (Session.Emit 0 Session.Ready); Send (Some 45000%N)]
          (boot ["numero1"; "numero2"]
             (Session.Provider (λ _, None) (λ _, None)))).1) !! 0
  = Some (TaskQueue.Run (TaskQueue.Job 0 45000) false true)) as Hr
    by reflexivity.
  split; [exact Hr|].
  exact (proj1 (failure_runs_failover (V:=nat) ["numero1"; "numero2"]
                  (Session.Provider (λ _, None) (λ _, None))
                  [ClientEvent (Session.Emit 0 Session.Ready);
                   Send (Some 45000%N)]
                  0 (TaskQueue.Run (TaskQueue.Job 0 45000) false true)
                  Hr eq_refl)).
Defined.

(** C3 as it is worded fails on that run: the job is failed by its timer
    and [failover()] is called for it. *)
Lemma timeout_runs_failover :
  ¬ timeout_spares_failover (V:=nat) ["numero1"; "numero2"]
      (Session.Provider (λ _, None) (λ _, None)).
Proof.
  intros H.
  specialize (H [ClientEvent (Session.Emit 0 Session.Ready); Send (Some 45000%N)]
                0 45000%N eq_refl).
  discriminate H.
Qed.


Section More.
Context {V : Type}.
Variable sessionIds : list string.
Variable P : Session.provider.

Local Abbreviation step := (step (V:=V) sessionIds P).
Local Abbreviation exec := (exec (V:=V) sessionIds P).
Local Abbreviation boot := (boot sessionIds P).
Local Abbreviation react := (react (V:=V) sessionIds P).
Local Abbreviation settled := (settled (V:=V) sessionIds P).
Local Abbreviation qinv := (qinv (V:=V)).

Import TaskQueueFacts SessionFacts.

Lemma answers_app (o1 o2 : list (output V)) :
  answers (o1 ++ o2) = answers o1 ++ answers o2.
Proof. unfold answers. apply omap_app. Qed.

Lemma begun_app (o1 o2 : list (output V)) :
  begun (o1 ++ o2) = begun o1 ++ begun o2.
Proof. unfold begun. apply omap_app. Qed.

Lemma refusals_app (o1 o2 : list (output V)) :
  refusals (o1 ++ o2) = refusals o1 ++ refusals o2.
Proof. unfold refusals. apply omap_app. Qed.

Lemma each_action_more (l : list TaskQueue.job) (s : state) :
  begun (each (action (V:=V)) l s).2 = TaskQueue.fn <$> l ∧
  answers (each (action (V:=V)) l s).2 = [] ∧
  (supplied s →
   supplied (each (action (V:=V)) l s).1 ∧
   refusals (each (action (V:=V)) l s).2 = []).
Proof.
  revert s. induction l as [|j l IH]; intros s; [done|].
  rewrite each_cons. cbn [fst snd].
  destruct (IH (action (V:=V) j s).1) as (H1 & H2 & H3).
  rewrite begun_app, answers_app, refusals_app, H1, H2.
  split_and!.
  - unfold action. by destruct (Session.client (ctl s)).
  - unfold action. by destruct (Session.client (ctl s)).
  - intros [Hlast Hacts].
    assert (supplied (action (V:=V) j s).1
            ∧ refusals (action (V:=V) j s).2 = []) as [Hs Hr].
    { unfold action. destruct Hlast as (h & Hc & Hl). rewrite Hc. simpl.
      split; [|done]. split; [by exists h|]. simpl. intros id.
      destruct (decide (id = TaskQueue.fn j)) as [->|Hne].
      - by rewrite lookup_insert_eq.
      - rewrite lookup_insert_ne by done. apply Hacts. }
    destruct (H3 Hs) as [H4 H5]. by rewrite Hr, H5.
Qed.

Lemma each_settled_more (l : list (TaskQueue.job * outcome V)) (s : state) :
  begun (each settled l s).2 = [] ∧
  answers (each settled l s).2 = TaskQueue.fn <$> l.*1 ∧
  refusals (each settled l s).2 = [] ∧
  (supplied s → supplied (each settled l s).1).
Proof.
  revert s. induction l as [|[j o] l IH]; intros s; [done|].
  rewrite each_cons. cbn [fst snd].
  destruct (IH (settled (j, o) s).1) as (H1 & H2 & H3 & H4).
  rewrite begun_app, answers_app, refusals_app, H1, H2, H3.
  unfold Sender.settled. destruct o as [v|e]; simpl; split_and!; try done.
  intros [Hlast Hacts]. apply H4. unfold Sender.settled. simpl.
  split; [apply current_is_last_failover|done].
Qed.

Lemma react_more (r : TaskQueue.state * list (TaskQueue.output V))
    (s : state) :
  begun (react r s).2 = TaskQueue.fn <$> TaskQueue.started r.2 ∧
  answers (react r s).2 = TaskQueue.fn <$> (TaskQueue.deliveries r.2).*1 ∧
  (supplied s → supplied (react r s).1 ∧ refusals (react r s).2 = []).
Proof.
  unfold Sender.react.
  pose proof (each_action_more (TaskQueue.started r.2)
                (State r.1 (ctl s) (acts s))) as Ha.
  destruct (each action _ _) as [s1 o1]. simpl in Ha.
  pose proof (each_settled_more (TaskQueue.deliveries r.2) s1) as Hs.
  destruct (each (Sender.settled _ _) _ _) as [s2 o2]. simpl in *.
  destruct Ha as (Hb1 & Ha1 & Hs1). destruct Hs as (Hb2 & Ha2 & Hr2 & Hs2).
  rewrite begun_app, answers_app, refusals_app, Hb1, Hb2, Ha1, Ha2, Hr2.
  rewrite app_nil_r. split_and!; [done|done|].
  intros Hsup. destruct Hs1 as [Hs1 Hr1]; [exact Hsup|].
  rewrite Hr1. split; [by apply Hs2|done].
Qed.

Lemma supplied_boot : supplied boot.
Proof. split; [apply current_is_last_boot|]. intros id. by simpl. Qed.

Lemma supplied_step (ev : event V) (s : state) :
  supplied s → supplied (step ev s).1 ∧ refusals (step ev s).2 = [].
Proof.
  intros Hs. destruct ev as [opts|id o|id|id|pev]; simpl.
  - by apply react_more.
  - destruct (acts s !! id) as [[h|]|]; [|done|done]. by apply react_more.
  - destruct (acts s !! id) as [[h|]|] eqn:E; [done| |done].
    by destruct Hs as [_ Hs]; destruct (Hs id).
  - by apply react_more.
  - destruct Hs as [Hl Ha]. split; [split; [|done]|].
    + simpl. by apply current_is_last_step.
    + destruct pev as [h sig|h e]; [|done]. destruct sig; try done.
      destruct (Session.heap (ctl s) !! h); [|done].
      by destruct (bool_decide _).
Qed.

Lemma supplied_exec (evs : list (event V)) (s : state) :
  supplied s → supplied (exec evs s).1 ∧ refusals (exec evs s).2 = [].
Proof.
  revert s. induction evs as [|ev evs IH]; intros s Hs; [done|].
  rewrite sender_exec_cons. simpl.
  destruct (supplied_step ev s Hs) as [Hs1 Hr1].
  destruct (IH _ Hs1) as [Hs2 Hr2].
  by rewrite refusals_app, Hr1, Hr2.
Qed.

(** X7. There is always a client.  After start-up [client] is never null again:
    over any sequence of sends, settlements, timers and provider events the
    action of a job never throws 'Cliente no inicializado', and the current
    client is the one built last. *)
Theorem client_is_never_missing (evs : list (event V)) :
  let r := exec evs boot in
  (∃ h, Session.client (ctl r.1) = Some h
        ∧ S h = length (Session.heap (ctl r.1))) ∧
  refusals r.2 = [] ∧
  (∀ id, acts r.1 !! id ≠ Some Refused) ∧
  (∀ id, step (Refusal id) r.1 = (r.1, [])).
Proof.
  intros r. subst r.
  destruct (supplied_exec evs _ supplied_boot) as [[Hl Ha] Hr].
  split_and!; [exact Hl|exact Hr|exact Ha|].
  intros id. simpl. specialize (Ha id).
  by destruct (acts _ !! id) as [[h|]|].
Qed.

Lemma numbered_prefix (l rest : list TaskQueue.job) :
  TaskQueue.numbered (l ++ rest) → TaskQueue.fn <$> l = seq 0 (length l).
Proof.
  intros Hn. apply list_eq. intros i. rewrite list_lookup_fmap.
  destruct (l !! i) as [j|] eqn:E; simpl.
  - rewrite (Hn i j) by (by apply lookup_app_l_Some).
    symmetry. apply lookup_seq. split; [done|]. by eapply lookup_lt_Some.
  - symmetry. apply lookup_seq_ge. by apply lookup_ge_None.
Qed.

Lemma track_react (qev : TaskQueue.event V) (s : state) all
    (done : list (TaskQueue.job * outcome V)) cur :
  TaskQueue.inv all done cur (q s) →
  ∃ all' (done' : list (TaskQueue.job * outcome V)) cur',
    TaskQueue.inv all' done' cur' (q (react (TaskQueue.step qev (q s)) s).1) ∧
    done'.*1
    = done.*1 ++ (TaskQueue.deliveries (TaskQueue.step qev (q s)).2).*1 ∧
    done'.*1 ++ option_list cur'
    = (done.*1 ++ option_list cur)
      ++ TaskQueue.started (TaskQueue.step qev (q s)).2.
Proof.
  intros Hinv.
  destruct (inv_step _ _ _ _ qev Hinv) as (done' & cur' & Hinv' & Htr).
  destruct (react_facts sessionIds P (TaskQueue.step qev (q s)) s)
    as (Hq & _).
  eexists _, done', cur'. rewrite Hq. split; [exact Hinv'|].
  split.
  - apply (f_equal TaskQueue.deliveries) in Htr.
    rewrite deliveries_app, !deliveries_trace_of in Htr.
    by rewrite Htr, fmap_app.
  - apply (f_equal TaskQueue.started) in Htr.
    by rewrite started_app, !started_trace_of in Htr.
Qed.

Lemma track_step (ev : event V) (s : state) all
    (done : list (TaskQueue.job * outcome V)) cur :
  TaskQueue.inv all done cur (q s) →
  ∃ all' (done' : list (TaskQueue.job * outcome V)) cur',
    TaskQueue.inv all' done' cur' (q (step ev s).1) ∧
    TaskQueue.fn <$> done'.*1
    = (TaskQueue.fn <$> done.*1) ++ answers (step ev s).2 ∧
    TaskQueue.fn <$> (done'.*1 ++ option_list cur')
    = (TaskQueue.fn <$> (done.*1 ++ option_list cur))
      ++ begun (step ev s).2.
Proof.
  intros Hinv.
  assert (∀ qev : TaskQueue.event V,
            ∃ all' (done' : list (TaskQueue.job * outcome V)) cur',
              TaskQueue.inv all' done' cur'
                (q (react (TaskQueue.step qev (q s)) s).1) ∧
              TaskQueue.fn <$> done'.*1
              = (TaskQueue.fn <$> done.*1)
                ++ answers (react (TaskQueue.step qev (q s)) s).2 ∧
              TaskQueue.fn <$> (done'.*1 ++ option_list cur')
              = (TaskQueue.fn <$> (done.*1 ++ option_list cur))
                ++ begun (react (TaskQueue.step qev (q s)) s).2) as Hq.
  { intros qev.
    destruct (track_react qev s _ _ _ Hinv)
      as (all' & done' & cur' & Hinv' & Hd & Hb).
    destruct (react_more (TaskQueue.step qev (q s)) s) as (-> & -> & _).
    exists all', done', cur'.
    by rewrite Hb, Hd, !fmap_app. }
  assert (∃ all' (done' : list (TaskQueue.job * outcome V)) cur',
            TaskQueue.inv all' done' cur' (q s) ∧
            TaskQueue.fn <$> done'.*1 = (TaskQueue.fn <$> done.*1) ++ [] ∧
            TaskQueue.fn <$> (done'.*1 ++ option_list cur')
            = (TaskQueue.fn <$> (done.*1 ++ option_list cur)) ++ [])
    as Hstay.
  { exists all, done, cur. by rewrite !app_nil_r. }
  destruct ev as [opts|id o|id|id|pev]; simpl.
  - apply (Hq (TaskQueue.Enqueue opts)).
  - destruct (acts s !! id) as [[h|]|]; [|done|done].
    apply (Hq (TaskQueue.ActionSettles id o)).
  - destruct (acts s !! id) as [[h|]|]; [done| |done].
    apply (Hq (TaskQueue.ActionSettles id (Failure no_client))).
  - apply (Hq (TaskQueue.TimerFires id)).
  - assert (answers (provider_event (V:=V) sessionIds P pev s).2 = []
            ∧ begun (provider_event (V:=V) sessionIds P pev s).2 = [])
      as [Ha Hb].
    { unfold provider_event. simpl.
      destruct pev as [h sig|h e]; [|done]. destruct sig; try done.
      destruct (Session.heap (ctl s) !! h); [|done].
      by destruct (bool_decide _). }
    unfold provider_event in *. simpl in *. rewrite Ha, Hb. exact Hstay.
Qed.

Lemma track_exec (evs : list (event V)) (s : state) all
    (done : list (TaskQueue.job * outcome V)) cur :
  TaskQueue.inv all done cur (q s) →
  ∃ all' (done' : list (TaskQueue.job * outcome V)) cur',
    TaskQueue.inv all' done' cur' (q (exec evs s).1) ∧
    TaskQueue.fn <$> done'.*1
    = (TaskQueue.fn <$> done.*1) ++ answers (exec evs s).2 ∧
    TaskQueue.fn <$> (done'.*1 ++ option_list cur')
    = (TaskQueue.fn <$> (done.*1 ++ option_list cur))
      ++ begun (exec evs s).2.
Proof.
  revert s all done cur.
  induction evs as [|ev evs IH]; intros s all done cur Hinv.
  { exists all, done, cur. by rewrite !app_nil_r. }
  rewrite sender_exec_cons. simpl.
  destruct (track_step ev s _ _ _ Hinv)
    as (all1 & done1 & cur1 & Hinv1 & Ha1 & Hb1).
  destruct (IH _ _ _ _ Hinv1) as (all2 & done2 & cur2 & Hinv2 & Ha2 & Hb2).
  exists all2, done2, cur2. split; [done|].
  by rewrite answers_app, begun_app, Ha2, Hb2, Ha1, Hb1, !app_assoc.
Qed.

(** X8. Answers come in the order of the requests.  Over any sequence of
    events after start-up, the calls of [enqueueSendOperation] are answered
    (by a value or by an error) in the order they were made, each at most
    once; their actions are run in that order too; at most one request
    has been begun and not yet answered; and every request made is either
    begun or still in the queue. *)
Theorem answers_in_order (evs : list (event V)) :
  let r := exec evs boot in
  answers r.2 = seq 0 (length (answers r.2)) ∧
  begun r.2 = seq 0 (length (begun r.2)) ∧
  length (answers r.2) ≤ length (begun r.2) ≤ S (length (answers r.2)) ∧
  length (begun r.2) + length (TaskQueue.queue (q r.1))
  = TaskQueue.submitted (q r.1).
Proof.
  intros r. subst r.
  destruct (track_exec evs boot [] [] None inv_init)
    as (all & done & cur & Hinv & Ha & Hb).
  simpl in Ha, Hb. rewrite <- Ha, <- Hb.
  destruct Hinv as (_ & _ & Hall & Hnum & Hsub & _).
  rewrite !length_fmap.
  split_and!.
  - rewrite <- (length_fmap fst done). eapply numbered_prefix.
    by rewrite Hall.
  - rewrite <- (length_fmap TaskQueue.fn (done.*1 ++ option_list cur)).
    rewrite length_fmap.
    eapply (numbered_prefix _ (TaskQueue.queue (q (exec evs boot).1))).
    by rewrite <- app_assoc, Hall.
  - rewrite length_app, length_fmap. lia.
  - rewrite length_app, length_fmap. destruct cur; simpl; lia.
  - rewrite Hsub, <- Hall, !length_app, !length_fmap. lia.
Qed.

(** X9. A send begun in the turn of a failure goes to the client that is being
    given up.  When the running job fails, by its timer or by its action,
    while another request waits in the queue, the loop calls the waiting
    request's send on the current client first, and only then does the
    caller of the failed job run [failover()], which destroys that very
    client and replaces it. *)
Theorem queued_send_meets_doomed_client (evs : list (event V)) (id : nat)
    (r : TaskQueue.run) (k : TaskQueue.job) :
  let s := (exec evs boot).1 in
  TaskQueue.runs (q s) !! id = Some r → TaskQueue.finished r = false →
  head (TaskQueue.queue (q s)) = Some k →
  ∃ h, Session.client (ctl s) = Some h ∧
    (∀ ev e,
       ev = JobTimer id
            ∧ e = TaskQueue.timeout_error
                    (TaskQueue.timeoutMs (TaskQueue.owner r))
       ∨ (∃ h0, acts s !! id = Some (Calling h0))
         ∧ ev = Settles id (Failure e) →
       (step ev s).2 = [Attempt (TaskQueue.fn k) h; Failover; Thrown id e] ∧
       Session.client (ctl (step ev s).1) = Some (S h) ∧
       Session.destroy_called <$> Session.heap (ctl (step ev s).1) !! h
       = Some true).
Proof.
  intros s Hr Hf Hk. subst s.
  destruct (qinv_exec sessionIds P evs _ (qinv_boot sessionIds P))
    as (all & done & cur & Hinv).
  destruct (supplied_exec evs _ supplied_boot) as [[(h & Hc & Hl) _] _].
  destruct (inv_run_unfinished _ _ _ _ _ _ Hinv Hr Hf) as (-> & Hfn & Hrun).
  destruct r as [j fin tm]. simpl in *. injection Hrun as -> ->. subst id.
  exists h. split; [done|]. intros ev e Hev.
  assert (step ev (exec evs boot).1
          = react (TaskQueue.resume (TaskQueue.Run j false true) (Failure e)
                     (TaskQueue.set_run (TaskQueue.fn j)
                        (TaskQueue.Run j true false) (q (exec evs boot).1)))
              (exec evs boot).1) as ->.
  { destruct Hev as [[-> ->]|[[h0 Hcall] ->]]; simpl.
    - unfold TaskQueue.timer_fires. by rewrite Hr.
    - rewrite Hcall. unfold TaskQueue.action_settles. by rewrite Hr. }
  destruct (react_resume sessionIds P _ _ _ (Failure e) _ Hinv) as (-> & ->).
  unfold Sender.next_start, action, Sender.settled, Session.try_log.
  rewrite Hk, Hc. cbn [fst snd ctl app]. rewrite failover_unfold, Hc.
  split; [done|]. simpl.
  split; [by rewrite <- Hl|].
  assert (is_Some (Session.heap (ctl (exec evs boot).1) !! h)) as [c Hh].
  { apply lookup_lt_is_Some. lia. }
  rewrite lookup_app_l by (rewrite length_alter; lia).
  by rewrite list_lookup_alter_eq, Hh.
Qed.

End More.

Lemma queued_send_meets_doomed_client_witness :
  ∃ h,
    Session.client
      (ctl (exec (V:=nat) ["numero1"; "numero2"]
              (Session.Provider (λ _, None) (λ _, None))
              [Send None; Send None]
              (boot ["numero1"; "numero2"]
                 (Session.Provider (λ _, None) (λ _, None)))).1) = Some h ∧
    (step (V:=nat) ["numero1"; "numero2"]
       (Session.Provider (λ _, None) (λ _, None)) (JobTimer 0)
       (exec (V:=nat) ["numero1"; "numero2"]
          (Session.Provider (λ _, None) (λ _, None))
          [Send None; Send None]
          (boot ["numero1"; "numero2"]
             (Session.Provider (λ _, None) (λ _, None)))).1).2
    = [Attempt 1 h; Failover;
       Thrown 0 (TaskQueue.timeout_error 30000)].
Proof.
  destruct (queued_send_meets_doomed_client (V:=nat) ["numero1"; "numero2"]
              (Session.Provider (λ _, None) (λ _, None))
              [Send None; Send None] 0
              (TaskQueue.Run (TaskQueue.Job 0 30000) false true)
              (TaskQueue.Job 1 30000) eq_refl eq_refl eq_refl)
    as (h & Hc & Hall).
  exists h. split; [exact Hc|].
  exact (proj1 (Hall (JobTimer 0) (TaskQueue.timeout_error 30000)
                  (or_introl (conj eq_refl eq_refl)))).
Defined.

End SenderFacts.

Module MainQueueFacts.
Import MainQueue.

Section Facts.
Context {V : Type}.
Variable sessionIds : list string.
Variable P : Session.provider.

Local Abbreviation step := (step (V:=V) sessionIds).
Local Abbreviation exec := (exec (V:=V) sessionIds).
Local Abbreviation boot := (boot sessionIds).
Local Abbreviation turn := (turn (V:=V)).
Local Abbreviation resume := (resume (V:=V) sessionIds).
Local Abbreviation failover := (failover sessionIds).

Lemma gate_exec_cons (ev : event V) evs s :
  exec (ev :: evs) s
  = ((exec evs (step ev s).1).1, (step ev s).2 ++ (exec evs (step ev s).1).2).
Proof.
  simpl. destruct (MainQueue.step _ ev s) as [s1 o1]. simpl.
  by destruct (MainQueue.exec _ evs s1).
Qed.

(** *** Every call of a task follows the opening of its gate *)

Lemma sound_nil : sound (V:=V) [].
Proof. done. Qed.

Lemma gated_app prev (o1 o2 : list (output V)) :
  gated prev (o1 ++ o2)
  = gated prev o1 && gated (from_option Some prev (last o1)) o2.
Proof.
  revert prev. induction o1 as [|x o1 IH]; intros prev; [done|].
  cbn [app gated]. rewrite IH, andb_assoc. do 2 f_equal.
  destruct o1 as [|y o1]; [done|]. rewrite last_cons_cons.
  by destruct (last (y :: o1)) eqn:Hl; [|by apply last_None in Hl].
Qed.

Lemma sound_app (o1 o2 : list (output V)) : sound o1 → sound o2 → sound (o1 ++ o2).
Proof. intros H1 H2 prev. by rewrite gated_app, H1, H2. Qed.

Lemma sound_turn s : sound (turn s).2.
Proof.
  intros prev. unfold MainQueue.turn.
  destruct (sendQueue s) as [|it rest]; [done|]. simpl.
  destruct (client s) as [h|]; [|done].
  destruct (clientReady s); [|done]. simpl.
  by rewrite bool_decide_eq_true_2.
Qed.

Lemma sound_resume it o s : sound (resume it o s).2.
Proof.
  unfold MainQueue.resume. pose proof (sound_turn s) as Ht.
  destruct (turn s) as [s1 o1]. simpl in Ht.
  destruct (on_error it && is_failure o); simpl.
  - apply (sound_app [Delivered (taskFn it) o]); [done|].
    by apply sound_app.
  - by apply (sound_app [Delivered (taskFn it) o]).
Qed.

Lemma sound_step (ev : event V) s : sound (step ev s).2.
Proof.
  destruct ev as [b|h sig|i|i o]; simpl.
  - unfold enqueue, processQueue. simpl.
    destruct (processingQueue s); [done|]. apply sound_turn.
  - unfold emit. destruct (heap s !! h) as [c|]; [|done].
    destruct (bool_decide _); [|done]. destruct sig; try done.
    unfold on_ready.
    match goal with
    | |- context [at_ ?x] => destruct (at_ x) as [|it [h'|] ms|it]
    end; try done.
    destruct (bool_decide (h' = h)); [|done]. intros prev. simpl.
    by rewrite bool_decide_eq_true_2.
  - unfold gate_timer. destruct (at_ s) as [|it l ms|it]; try done.
    destruct (bool_decide _); [|done].
    pose proof (sound_resume it (Failure gate_timeout) s) as Hr.
    destruct (resume it _ s) as [s1 o1]. simpl in *.
    by apply (sound_app [Expired i]).
  - unfold task_settles. destruct (at_ s) as [|it l ms|it]; try done.
    destruct (bool_decide _); [|done]. apply sound_resume.
Qed.

Lemma sound_exec (evs : list (event V)) s : sound (exec evs s).2.
Proof.
  revert s. induction evs as [|ev evs IH]; intros s; [done|].
  rewrite gate_exec_cons. apply sound_app; [apply sound_step|apply IH].
Qed.

(** *** The order of the items, and the clients the gate listens on *)

Lemma wf_boot : wf boot.
Proof.
  split_and!; try done. split.
  - intros [|h] c Hc; [|done]. by injection Hc as <-.
  - intros h [= <-]. simpl. lia.
Qed.

Lemma wired_failover s : wired s → wired (failover s).
Proof.
  intros [Hon Hcl]. split; simpl.
  - intros h c Hc. apply lookup_app_Some in Hc as [Hc|[_ Hc]].
    + destruct (client s) as [h'|]; [|by eapply Hon].
      destruct (decide (h' = h)) as [->|Hne].
      * rewrite list_lookup_alter_eq in Hc.
        apply fmap_Some in Hc as (x & Hx & ->). simpl. by eapply Hon.
      * rewrite list_lookup_alter_ne in Hc by done. by eapply Hon.
    + apply list_lookup_singleton_Some in Hc as [_ <-]. done.
  - intros h [= <-]. rewrite length_app. simpl. lia.
Qed.

Lemma length_heap_failover s : length (heap s) ≤ length (heap (failover s)).
Proof.
  simpl. rewrite length_app. destruct (client s); rewrite ?length_alter; lia.
Qed.

Lemma wf_failover s : wf s → wf (failover s).
Proof.
  intros (Hq & Hw & Hp & Hg & Hms). split_and!; try done.
  - by apply wired_failover.
  - intros it h ms Hat. pose proof (length_heap_failover s).
    specialize (Hg it h ms Hat). lia.
Qed.

(** A turn of the loop, from a state whose queue starts at item [k]. *)
Lemma turn_wf k s :
  queued k s → wired s → processingQueue s = true →
  wf (turn s).1 ∧ k ≤ bound (turn s).1 ∧
  Forall (λ i : nat, k ≤ i) (invoked (turn s).2).
Proof.
  intros [Hq Hk] [Hon Hcl] Hp. unfold MainQueue.turn.
  destruct (sendQueue s) as [|it rest] eqn:Hs; simpl.
  - assert (k = submitted s) as ->.
    { symmetry in Hq. apply (f_equal length) in Hq.
      rewrite length_seq in Hq. simpl in Hq. lia. }
    split_and!; [|unfold bound, low; simpl; lia|constructor].
    unfold wf, queued, wired, low. simpl. rewrite Nat.sub_diag.
    split_and!; done.
  - csimpl in Hq.
    destruct (submitted s - k) as [|n] eqn:Hn; [done|]. simpl in Hq.
    injection Hq as Hit Hrest.
    assert (taskFn <$> rest = seq (S (taskFn it)) (submitted s - S (taskFn it))
            ∧ S (taskFn it) ≤ submitted s) as Hq'.
    { rewrite Hit, Hrest. split; [f_equal|]; lia. }
    destruct (client s) as [h|] eqn:Hc; [destruct (clientReady s)|];
      simpl; (split_and!;
              [unfold wf, queued, wired, low; simpl; rewrite ?Hc;
               split_and!; try done; try apply Hq'
              |unfold bound, low; simpl; lia
              |unfold invoked; simpl; repeat constructor; lia]).
    + intros it' h' ms [= <- <- <-]. by apply Hcl.
    + by intros it' l ms [= <- <- <-].
    + by intros it' l ms [= <- <- <-].
Qed.

Lemma invoked_app (o1 o2 : list (output V)) :
  invoked (o1 ++ o2) = invoked o1 ++ invoked o2.
Proof. unfold invoked. apply omap_app. Qed.

(** The item the loop holds is settled: the loop moves on, and the task of
    that item is out of reach for good. *)
Lemma resume_wf it (o : outcome V) s :
  wf s → at_ s ≠ Idle → low s = S (taskFn it) →
  wf (resume it o s).1 ∧ S (taskFn it) ≤ bound (resume it o s).1 ∧
  Forall (λ i : nat, S (taskFn it) ≤ i) (invoked (resume it o s).2) ∧
  ∃ rest, (resume it o s).2 = Delivered (taskFn it) o :: rest.
Proof.
  intros (Hq & Hw & Hp & Hg & Hms) Hat Hlow. rewrite Hlow in Hq.
  assert (processingQueue s = true) as Hpt.
  { rewrite Hp. by destruct (at_ s). }
  destruct (turn_wf _ s Hq Hw Hpt) as (Hwf & Hb & Hi).
  unfold MainQueue.resume. destruct (turn s) as [s1 o1]. simpl in *.
  destruct (on_error it && is_failure o); simpl.
  - split_and!; [by apply wf_failover|done| |by eexists].
    change (Delivered (taskFn it) o :: o1 ++ [Failover])
      with ([Delivered (taskFn it) o] ++ o1 ++ [Failover]).
    rewrite !invoked_app. simpl. by rewrite app_nil_r.
  - split_and!; [done|done|done|by eexists].
Qed.

Ltac stays := simpl; split_and!; [assumption|lia|constructor].

Lemma step_wf (ev : event V) s :
  wf s →
  wf (step ev s).1 ∧ bound s ≤ bound (step ev s).1 ∧
  Forall (λ i : nat, bound s ≤ i) (invoked (step ev s).2).
Proof.
  intros Hwf. pose proof Hwf as (Hq & Hw & Hp & Hg & Hms).
  destruct ev as [b|h sig|i|i o]; simpl.
  - unfold enqueue, processQueue. simpl.
    destruct (processingQueue s) eqn:Hpq; simpl.
    + assert (at_ s ≠ Idle) as Hni.
      { intros Hi. rewrite Hi in Hp. congruence. }
      split_and!; [|unfold bound, low; simpl; by destruct (at_ s)
                   |constructor].
      destruct Hq as [Hq Hle].
      assert (low (State (sendQueue s ++ [Item (submitted s) b]) true
                     (S (submitted s)) (at_ s) (client s) (clientReady s)
                     (currentSessionIndex s) (heap s)) = low s) as Hlow.
      { unfold low. simpl. by destruct (at_ s). }
      unfold wf, queued, wired. rewrite Hlow. simpl.
      split_and!; try done; [|lia|apply Hw..].
      rewrite fmap_app, Hq. simpl.
      replace (S (submitted s) - low s) with (S (submitted s - low s)) by lia.
      rewrite seq_S. do 2 f_equal. lia.
    + assert (at_ s = Idle) as Hidle
        by (destruct (at_ s); [done|discriminate Hp..]).
      assert (sendQueue s = []) as Hnil.
      { destruct Hq as [Hq _]. unfold low in Hq. rewrite Hidle in Hq.
        rewrite Nat.sub_diag in Hq. by apply fmap_nil_inv in Hq. }
      rewrite Hnil. simpl.
      match goal with |- context [turn ?x] => set (s1 := x) end.
      assert (queued (submitted s) s1) as Hq1.
      { split; simpl; [|lia].
        by replace (S (submitted s) - submitted s) with 1 by lia. }
      destruct (turn_wf _ s1 Hq1 Hw eq_refl) as (H1 & H2 & H3).
      unfold bound at 1 3, low. rewrite Hidle. done.
  - unfold emit. destruct (heap s !! h) as [c|] eqn:Hc; [|stays].
    destruct (bool_decide _); [|stays].
    destruct sig; try (stays).
    + unfold on_ready.
      set (s1 := set_heap (alter Session.mark_ready h (heap s)) s).
      set (s2 := if bool_decide _ then set_clientReady true s1 else s1).
      assert (wf s2 ∧ at_ s2 = at_ s ∧ bound s2 = bound s) as (Hwf2 & Hat & Hb).
      { assert (wf s1) as Hwf1.
        { destruct Hw as [Hon Hcl].
          unfold wf, queued, wired, low in *. subst s1. simpl.
          rewrite length_alter. split_and!; try done; try apply Hq.
          intros h' c' Hc'.
          destruct (decide (h = h')) as [->|Hne].
          - rewrite list_lookup_alter_eq in Hc'.
            apply fmap_Some in Hc' as (x & Hx & ->). simpl. by eapply Hon.
          - rewrite list_lookup_alter_ne in Hc' by done. by eapply Hon. }
        subst s2. by destruct (bool_decide _). }
      destruct (at_ s2) as [|it [h'|] ms|it] eqn:Hat2;
        try (simpl; rewrite Hb; stays).
      destruct (bool_decide (h' = h)); [|simpl; rewrite Hb; stays].
      simpl. rewrite <- Hb. unfold bound at 1 3. rewrite Hat2.
      unfold bound, low, invoked. simpl. split_and!; [|lia|repeat constructor].
      destruct Hwf2 as (Hq2 & Hw2 & Hp2 & Hg2 & Hms2).
      unfold wf, queued, wired, low in *. rewrite Hat2 in *. simpl.
      split_and!; try done; first [apply Hq2|apply Hw2].
    + simpl. split_and!; [|done|constructor].
      apply wf_failover. unfold wf, queued, wired, low in *. simpl.
      split_and!; try done; first [apply Hq|apply Hw].
  - unfold gate_timer. destruct (at_ s) as [|it l ms|it] eqn:Hat;
      try (stays).
    destruct (bool_decide _); [|stays].
    assert (low s = S (taskFn it)) as Hlow by (unfold low; by rewrite Hat).
    assert (at_ s ≠ Idle) as Hni by (by rewrite Hat).
    destruct (resume_wf it (Failure gate_timeout) s Hwf Hni Hlow)
      as (H1 & H2 & H3 & _).
    destruct (resume it _ s) as [s1 o1]. simpl in *.
    unfold bound at 1 3. rewrite Hat. split_and!; [done|lia|].
    eapply Forall_impl; [exact H3|]. simpl. lia.
  - unfold task_settles. destruct (at_ s) as [|it l ms|it] eqn:Hat;
      try (stays).
    destruct (bool_decide _); [|stays].
    assert (low s = S (taskFn it)) as Hlow by (unfold low; by rewrite Hat).
    assert (at_ s ≠ Idle) as Hni by (by rewrite Hat).
    destruct (resume_wf it o s Hwf Hni Hlow) as (H1 & H2 & H3 & _).
    unfold bound at 1 3, low. rewrite Hat. done.
Qed.

Lemma exec_wf (evs : list (event V)) s :
  wf s →
  wf (exec evs s).1 ∧
  Forall (λ i : nat, bound s ≤ i) (invoked (exec evs s).2).
Proof.
  revert s. induction evs as [|ev evs IH]; intros s Hwf; [by split|].
  rewrite gate_exec_cons. simpl. destruct (step_wf ev s Hwf) as (H1 & H2 & H3).
  destruct (IH _ H1) as (H4 & H5). split; [done|].
  rewrite invoked_app. apply Forall_app. split; [done|].
  eapply Forall_impl; [exact H5|]. simpl. lia.
Qed.

Lemma reachable_wf (evs : list (event V)) : wf (exec evs boot).1.
Proof. apply exec_wf, wf_boot. Qed.


End Facts.


Section More.
Context {V : Type}.
Variable sessionIds : list string.

Local Abbreviation step := (step (V:=V) sessionIds).
Local Abbreviation exec := (exec (V:=V) sessionIds).
Local Abbreviation boot := (boot sessionIds).
Local Abbreviation turn := (turn (V:=V)).
Local Abbreviation resume := (resume (V:=V) sessionIds).
Local Abbreviation failover := (failover sessionIds).
Local Abbreviation emit := (emit (V:=V) sessionIds).

Lemma entered_app (o1 o2 : list (output V)) :
  entered (o1 ++ o2) = entered o1 ++ entered o2.
Proof. unfold entered. apply omap_app. Qed.

Lemma delivered_app (o1 o2 : list (output V)) :
  delivered (o1 ++ o2) = delivered o1 ++ delivered o2.
Proof. unfold delivered. apply omap_app. Qed.

Lemma seq_join a b c :
  a ≤ b → b ≤ c → seq a (b - a) ++ seq b (c - b) = seq a (c - a).
Proof.
  intros Hab Hbc. replace (c - a) with ((b - a) + (c - b)) by lia.
  rewrite seq_app. do 2 f_equal. lia.
Qed.

Lemma wf_processing s : wf s → at_ s ≠ Idle → processingQueue s = true.
Proof. intros (_ & _ & Hp & _) Hat. rewrite Hp. by destruct (at_ s). Qed.

Lemma wf_idle_empty s : wf s → at_ s = Idle → sendQueue s = [].
Proof.
  intros ([Hq _] & _) Hat. unfold low in Hq. rewrite Hat in Hq.
  rewrite Nat.sub_diag in Hq. by apply fmap_nil_inv in Hq.
Qed.

(** What a turn of the loop takes from a queue that starts at item [k]. *)
Lemma turn_fifo k s :
  queued k s →
  entered (turn s).2 = seq k (low (turn s).1 - k) ∧ k ≤ low (turn s).1 ∧
  delivered (turn s).2 = [] ∧ served (turn s).1 = k.
Proof.
  intros [Hq Hk]. unfold MainQueue.turn.
  destruct (sendQueue s) as [|it rest] eqn:Hs; simpl.
  - assert (k = submitted s) as ->.
    { symmetry in Hq. apply (f_equal length) in Hq.
      rewrite length_seq in Hq. simpl in Hq. lia. }
    unfold low, served. simpl. rewrite Nat.sub_diag. done.
  - csimpl in Hq.
    destruct (submitted s - k) as [|n] eqn:Hn; [done|]. simpl in Hq.
    injection Hq as Hit Hrest.
    destruct (client s) as [h|]; [destruct (clientReady s)|];
      unfold low, served; simpl; rewrite Hit;
      (replace (S k - k) with 1 by lia); split_and!; done || lia.
Qed.

Lemma failover_keeps s :
  low (failover s) = low s ∧ served (failover s) = served s.
Proof. done. Qed.

Lemma resume_fifo it (o : outcome V) s :
  wf s → at_ s ≠ Idle → low s = S (taskFn it) →
  entered (resume it o s).2 = seq (low s) (low (resume it o s).1 - low s) ∧
  low s ≤ low (resume it o s).1 ∧
  delivered (resume it o s).2 = [taskFn it] ∧
  served (resume it o s).1 = S (taskFn it).
Proof.
  intros (Hq & _) Hat Hlow. rewrite Hlow in *.
  destruct (turn_fifo _ s Hq) as (H1 & H2 & H3 & H4).
  unfold MainQueue.resume. destruct (turn s) as [s1 o1].
  cbn [fst snd] in *.
  destruct (on_error it && is_failure o); cbn [fst snd].
  - change (Delivered (taskFn it) o :: o1 ++ [Failover])
      with ([Delivered (taskFn it) o] ++ o1 ++ [Failover]).
    rewrite !entered_app, !delivered_app, H1, H3. simpl.
    rewrite app_nil_r. done.
  - change (Delivered (taskFn it) o :: o1)
      with ([Delivered (taskFn it) o] ++ o1).
    rewrite !entered_app, !delivered_app, H1, H3. done.
Qed.

(** A provider event moves no item. *)
Lemma emit_fifo h sig s :
  at_ (emit h sig s).1 = at_ s
  ∨ (∃ it l ms, at_ s = AtGate it l ms ∧ at_ (emit h sig s).1 = InTask it).
Proof.
  unfold MainQueue.emit. destruct (heap s !! h) as [c|]; [|by left].
  destruct (bool_decide _); [|by left].
  destruct sig; try (by left).
  unfold on_ready.
  set (s1 := set_heap (alter Session.mark_ready h (heap s)) s).
  set (s2 := if bool_decide _ then set_clientReady true s1 else s1).
  assert (at_ s2 = at_ s) as Hat by (subst s2; by destruct (bool_decide _)).
  destruct (at_ s2) as [|it [h'|] ms|it] eqn:Hat2; simpl; try (left; congruence).
  destruct (bool_decide (h' = h)); simpl; [|left; congruence].
  right. by exists it, (Some h'), ms.
Qed.

Lemma emit_quiet h sig s :
  entered (emit h sig s).2 = [] ∧ delivered (emit h sig s).2 = [] ∧
  submitted (emit h sig s).1 = submitted s ∧
  sendQueue (emit h sig s).1 = sendQueue s.
Proof.
  unfold MainQueue.emit. destruct (heap s !! h) as [c|]; [|done].
  destruct (bool_decide _); [|done].
  destruct sig; try done.
  unfold on_ready.
  set (s1 := set_heap (alter Session.mark_ready h (heap s)) s).
  set (s2 := if bool_decide _ then set_clientReady true s1 else s1).
  assert (submitted s2 = submitted s ∧ sendQueue s2 = sendQueue s) as [E1 E2]
    by (subst s2; by destruct (bool_decide _)).
  destruct (at_ s2) as [|it [h'|] ms|it]; simpl; try done.
  by destruct (bool_decide (h' = h)).
Qed.

Lemma emit_low h sig s :
  low (emit h sig s).1 = low s ∧ served (emit h sig s).1 = served s.
Proof.
  destruct (emit_quiet h sig s) as (_ & _ & Hsub & _).
  unfold low, served. rewrite Hsub.
  destruct (emit_fifo h sig s) as [->|(it & l & ms & -> & ->)]; done.
Qed.

Lemma step_fifo (ev : event V) s :
  wf s →
  entered (step ev s).2 = seq (low s) (low (step ev s).1 - low s) ∧
  low s ≤ low (step ev s).1 ∧
  delivered (step ev s).2 = seq (served s) (served (step ev s).1 - served s) ∧
  served s ≤ served (step ev s).1.
Proof.
  intros Hwf. pose proof Hwf as (Hq & Hw & Hp & Hg & Hms).
  destruct ev as [b|h sig|i|i o]; simpl.
  - unfold enqueue, processQueue. simpl.
    destruct (processingQueue s) eqn:Hpq; simpl.
    + assert (at_ s ≠ Idle) as Hni.
      { intros Hi. rewrite Hi in Hp. congruence. }
      unfold low, served. simpl. destruct (at_ s); [done|..];
        rewrite !Nat.sub_diag; split_and!; done.
    + assert (at_ s = Idle) as Hidle
        by (destruct (at_ s); [done|discriminate Hp..]).
      rewrite (wf_idle_empty s Hwf Hidle). simpl.
      match goal with |- context [turn ?x] => set (s1 := x) end.
      assert (queued (submitted s) s1) as Hq1.
      { split; simpl; [|lia].
        by replace (S (submitted s) - submitted s) with 1 by lia. }
      destruct (turn_fifo _ s1 Hq1) as (H1 & H2 & H3 & H4).
      assert (low s = submitted s ∧ served s = submitted s) as [-> ->]
        by (unfold low, served; by rewrite Hidle).
      rewrite H3, H4, Nat.sub_diag. done.
  - destruct (emit_quiet h sig s) as (-> & -> & _).
    destruct (emit_low h sig s) as [-> ->].
    rewrite !Nat.sub_diag. done.
  - unfold gate_timer. destruct (at_ s) as [|it l ms|it] eqn:Hat;
      try (simpl; rewrite !Nat.sub_diag; done).
    destruct (bool_decide _); [|simpl; rewrite !Nat.sub_diag; done].
    assert (low s = S (taskFn it)) as Hlow by (unfold low; by rewrite Hat).
    assert (served s = taskFn it) as Hsv by (unfold served; by rewrite Hat).
    assert (at_ s ≠ Idle) as Hni by (by rewrite Hat).
    destruct (resume_fifo it (Failure gate_timeout) s Hwf Hni Hlow)
      as (H1 & H2 & H3 & H4).
    destruct (resume it _ s) as [s1 o1]. simpl in *.
    rewrite H1, H3, H4, Hsv.
    replace (S (taskFn it) - taskFn it) with 1 by lia.
    split_and!; done || lia.
  - unfold task_settles. destruct (at_ s) as [|it l ms|it] eqn:Hat;
      try (simpl; rewrite !Nat.sub_diag; done).
    destruct (bool_decide _); [|simpl; rewrite !Nat.sub_diag; done].
    assert (low s = S (taskFn it)) as Hlow by (unfold low; by rewrite Hat).
    assert (served s = taskFn it) as Hsv by (unfold served; by rewrite Hat).
    assert (at_ s ≠ Idle) as Hni by (by rewrite Hat).
    destruct (resume_fifo it o s Hwf Hni Hlow) as (H1 & H2 & H3 & H4).
    rewrite H1, H3, H4, Hsv.
    replace (S (taskFn it) - taskFn it) with 1 by lia.
    split_and!; done || lia.
Qed.

Lemma exec_fifo (evs : list (event V)) s :
  wf s →
  entered (exec evs s).2 = seq (low s) (low (exec evs s).1 - low s) ∧
  low s ≤ low (exec evs s).1 ∧
  delivered (exec evs s).2
  = seq (served s) (served (exec evs s).1 - served s) ∧
  served s ≤ served (exec evs s).1.
Proof.
  revert s. induction evs as [|ev evs IH]; intros s Hwf.
  { simpl. by rewrite !Nat.sub_diag. }
  rewrite gate_exec_cons. cbn [fst snd].
  destruct (step_wf sessionIds ev s Hwf) as (Hwf1 & _).
  destruct (step_fifo ev s Hwf) as (H1 & H2 & H3 & H4).
  destruct (IH _ Hwf1) as (H5 & H6 & H7 & H8).
  rewrite entered_app, delivered_app, H1, H3, H5, H7.
  rewrite !seq_join by done. split_and!; done || lia.
Qed.

(** X10. First in, first out, in the variant too.  Over any run the loop takes
    the items in the order they were submitted and answers them in that
    order, each once; it holds at most one item that is not answered yet;
    and every item submitted is either taken or still in the queue. *)
Theorem variant_serves_in_order (evs : list (event V)) :
  let r := exec evs boot in
  entered r.2 = seq 0 (length (entered r.2)) ∧
  delivered r.2 = seq 0 (length (delivered r.2)) ∧
  length (delivered r.2) ≤ length (entered r.2) ≤ S (length (delivered r.2)) ∧
  length (entered r.2) + length (sendQueue r.1) = submitted r.1.
Proof.
  intros r. subst r.
  destruct (exec_fifo evs boot (wf_boot sessionIds)) as (H1 & _ & H3 & _).
  pose proof (reachable_wf sessionIds evs) as ([Hq Hle] & _).
  change (low boot) with 0 in H1. change (served boot) with 0 in H3.
  rewrite Nat.sub_0_r in H1, H3. rewrite H1, H3, !length_seq.
  apply (f_equal length) in Hq. rewrite length_fmap, length_seq in Hq.
  split_and!; try done.
  - unfold low, served. destruct (at_ _); lia.
  - unfold low, served. destruct (at_ _); lia.
  - lia.
Qed.

Lemma step_blocked (ev : event V) s it :
  wf s → at_ s = InTask it → (∀ o, ev ≠ TaskSettles (taskFn it) o) →
  at_ (step ev s).1 = InTask it ∧
  Forall (λ x, x = Failover) (step ev s).2 ∧
  sendQueue s `prefix_of` sendQueue (step ev s).1.
Proof.
  intros Hwf Hat Hev.
  assert (processingQueue s = true) as Hp
    by (apply wf_processing; [done|by rewrite Hat]).
  destruct ev as [b|h sig|i|i o]; simpl.
  - unfold enqueue, processQueue. simpl. rewrite Hp. simpl.
    split_and!; [done|constructor|by apply prefix_app_r].
  - unfold MainQueue.emit. destruct (heap s !! h) as [c|]; [|done].
    destruct (bool_decide _); [|done].
    destruct sig; try done.
    + unfold on_ready.
      set (s1 := set_heap (alter Session.mark_ready h (heap s)) s).
      set (s2 := if bool_decide _ then set_clientReady true s1 else s1).
      assert (at_ s2 = at_ s ∧ sendQueue s2 = sendQueue s) as [E1 E2]
        by (subst s2; by destruct (bool_decide _)).
      rewrite E1, Hat. simpl. by rewrite E1, E2.
    + simpl. split_and!; [done|by repeat constructor|done].
  - unfold gate_timer. by rewrite Hat.
  - unfold task_settles. rewrite Hat.
    destruct (bool_decide (taskFn it = i)) eqn:E; [|done].
    apply bool_decide_eq_true in E. subst i. by destruct (Hev o).
Qed.

(** X11. A task has no deadline in the variant.  While the loop waits for the
    task of an item, nothing but the settling of that task moves it: no
    timer, no ['ready'], no failover and no new request takes another item
    from the queue, calls a task or answers anybody; new requests only
    queue up behind. *)
Theorem pending_task_blocks_the_queue (evs0 evs : list (event V))
    (it : item) :
  let s := (exec evs0 boot).1 in
  at_ s = InTask it →
  Forall (λ ev, ∀ o, ev ≠ TaskSettles (taskFn it) o) evs →
  at_ (exec evs s).1 = InTask it ∧
  Forall (λ x, x = Failover) (exec evs s).2 ∧
  sendQueue s `prefix_of` sendQueue (exec evs s).1.
Proof.
  intros s. pose proof (reachable_wf sessionIds evs0) as Hwf.
  fold s in Hwf. clearbody s. revert s Hwf.
  induction evs as [|ev evs IH]; intros s Hwf Hat Hevs; [done|].
  apply Forall_cons in Hevs as [Hev Hevs].
  rewrite gate_exec_cons. cbn [fst snd].
  destruct (step_blocked ev s it Hwf Hat Hev) as (H1 & H2 & H3).
  destruct (step_wf sessionIds ev s Hwf) as (Hwf1 & _).
  destruct (IH _ Hwf1 H1 Hevs) as (H4 & H5 & H6).
  split_and!; [done|by apply Forall_app|by etrans].
Qed.

(** X12. After a ['disconnected'] the requests wait for the new client.  From an
    idle loop, when any client emits ['disconnected']: the flag
    [clientReady] is lowered and a new client becomes current; the next
    request is taken at once but waits at the gate, listening on the new
    client with the 60 s timer; the ['ready'] of that client raises the
    flag, opens the gate and calls the task on it; and the ['ready'] of any
    other client does not open the gate. *)
Theorem after_disconnect_wait_for_new_client (evs : list (event V))
    (h : nat) (b : bool) :
  let s := (exec evs boot).1 in
  at_ s = Idle → h < length (heap s) →
  let n := length (heap s) in
  let s1 := (step (Emit h Session.Disconnected) s).1 in
  let r2 := step (Enqueue b) s1 in
  client s1 = Some n ∧ clientReady s1 = false ∧
  r2.2 = [Entered (submitted s)] ∧
  at_ r2.1 = AtGate (Item (submitted s) b) (Some n) 60000 ∧
  (step (Emit n Session.Ready) r2.1).2
  = [Passed (submitted s) n; Invoked (submitted s) (Some n)] ∧
  clientReady (step (Emit n Session.Ready) r2.1).1 = true ∧
  (∀ h', h' ≠ n → (step (Emit h' Session.Ready) r2.1).2 = []).
Proof.
  intros s Hat Hh n s1 r2.
  pose proof (reachable_wf sessionIds evs) as Hwf. fold s in Hwf.
  pose proof Hwf as (Hq & [Hon Hcl] & Hp & Hg & Hms).
  destruct (lookup_lt_is_Some_2 _ _ Hh) as [c Hc].
  assert (s1 = failover (set_clientReady false s)) as Hs1.
  { subst s1. simpl. unfold MainQueue.emit. rewrite Hc, (Hon _ _ Hc). done. }
  assert (length (match client s with
                  | Some h0 => alter Session.mark_destroy h0 (heap s)
                  | None => heap s
                  end) = n) as Hlen.
  { destruct (client s); [apply length_alter|done]. }
  assert (sendQueue s = []) as Hnil by by apply wf_idle_empty.
  assert (r2 = (State [] true (S (submitted s))
                  (AtGate (Item (submitted s) b) (Some n) 60000)
                  (Some n) false (currentSessionIndex s1) (heap s1),
                [Entered (submitted s)])) as Hr2.
  { subst r2. rewrite Hs1. simpl. unfold enqueue, processQueue. simpl.
    rewrite Hp, Hat, Hnil. simpl. unfold MainQueue.turn. simpl.
    unfold set_at. simpl. by rewrite Hlen. }
  assert (heap s1 !! n
          = Some (Session.MkClient
                    (sessionIds !! currentSessionIndex s1) six
                    false true false false)) as Hn.
  { rewrite Hs1. simpl. rewrite lookup_app_r by lia.
    by rewrite Hlen, Nat.sub_diag. }
  split_and!.
  - rewrite Hs1. simpl. by rewrite Hlen.
  - by rewrite Hs1.
  - by rewrite Hr2.
  - by rewrite Hr2.
  - rewrite Hr2. simpl. unfold MainQueue.emit. simpl. rewrite Hn. simpl.
    unfold on_ready. simpl. rewrite bool_decide_eq_true_2 by done. simpl.
    by rewrite bool_decide_eq_true_2.
  - rewrite Hr2. simpl. unfold MainQueue.emit. simpl. rewrite Hn. simpl.
    unfold on_ready. simpl. rewrite bool_decide_eq_true_2 by done. simpl.
    by rewrite bool_decide_eq_true_2.
  - intros h' Hne. rewrite Hr2. simpl. unfold MainQueue.emit. simpl.
    destruct (heap s1 !! h') as [c'|]; [|done].
    destruct (bool_decide _); [|done]. unfold on_ready.
    match goal with
    | |- context [at_ ?x] =>
        replace (at_ x)
          with (AtGate (Item (submitted s) b) (Some n) 60000)
          by (by destruct (bool_decide _))
    end.
    by rewrite bool_decide_eq_false_2.
Qed.

End More.

Lemma pending_task_blocks_the_queue_witness :
  at_ (exec (V:=nat) ["numero1"; "numero2"]
         [GateTimer 0; Enqueue true; Emit 0 Session.Disconnected;
          TaskSettles 1 (Success 7)]
         (exec (V:=nat) ["numero1"; "numero2"]
            [Emit 0 Session.Ready; Enqueue true]
            (boot ["numero1"; "numero2"])).1).1
  = InTask (Item 0 true).
Proof.
  refine (proj1 (pending_task_blocks_the_queue (V:=nat)
                   ["numero1"; "numero2"]
                   [Emit 0 Session.Ready; Enqueue true]
                   [GateTimer 0; Enqueue true; Emit 0 Session.Disconnected;
                    TaskSettles 1 (Success 7)]
                   (Item 0 true) eq_refl _)).
  repeat constructor; intros o; discriminate.
Defined.

Lemma after_disconnect_wait_for_new_client_witness :
  (step (V:=nat) ["numero1"; "numero2"] (Enqueue true)
     (step (V:=nat) ["numero1"; "numero2"] (Emit 0 Session.Disconnected)
        (exec (V:=nat) ["numero1"; "numero2"] [Emit 0 Session.Ready]
           (boot ["numero1"; "numero2"])).1).1).2
  = [Entered 0].
Proof.
  refine (proj1 (proj2 (proj2
            (after_disconnect_wait_for_new_client (V:=nat)
               ["numero1"; "numero2"] [Emit 0 Session.Ready] 0 true
               eq_refl _)))).
  simpl. lia.
Defined.

End MainQueueFacts.

Module CorrelatorFacts.
Import Correlator.

Lemma correlator_exec_cons (ev : event) evs s :
  exec (ev :: evs) s
  = ((exec evs (step ev s).1).1, (step ev s).2 ++ (exec evs (step ev s).1).2).
Proof.
  simpl. destruct (step ev s) as [s1 o1]. simpl. by destruct (exec evs s1).
Qed.

Lemma correlator_exec_app (evs1 evs2 : list event) s :
  (exec (evs1 ++ evs2) s).1 = (exec evs2 (exec evs1 s).1).1.
Proof.
  revert s. induction evs1 as [|ev evs1 IH]; intros s; [done|].
  rewrite <- app_comm_cons, !correlator_exec_cons. simpl. apply IH.
Qed.

(** C8. An inbound message on a conversation with a wait on it is cached
    under the identifier the conversation maps to, the mapping is removed,
    every waiter of that identifier is called with the message, and the
    deadline timer is cleared, so that its callback never runs; on a
    conversation with no wait the message changes nothing. *)
Theorem inbound_resolves_wait (m : message) (s : state) :
  match esperas s !! from m with
  | Some id =>
      let r := onInboundMessage m s in
      respuestas r.1 = <[id := m]> (respuestas s) ∧
      esperas r.1 = delete (from m) (esperas s) ∧
      r.2 = (λ w, Woken w (Some m)) <$> default [] (resolvers s !! id) ∧
      resolvers r.1 = delete id (resolvers s) ∧
      timeouts r.1 = delete id (timeouts s) ∧
      (∀ t, timeouts s !! id = Some t →
            timers r.1 = delete t (timers s) ∧ deadline t r.1 = (r.1, [])) ∧
      (timeouts s !! id = None → timers r.1 = timers s)
  | None => onInboundMessage m s = (s, [])
  end.
Proof.
  unfold onInboundMessage. destruct (esperas s !! from m) as [id|]; [|done].
  destruct (resolvers s !! id) as [ws|] eqn:Hws;
    destruct (timeouts s !! id) as [t|] eqn:Ht; simpl;
    split_and!; try done;
    try (by rewrite delete_id);
    try (intros t' [= <-]; split; [done|];
         unfold deadline; simpl; by rewrite lookup_delete_eq).
Qed.

(** A wait with one waiter, and the reply that ends it: the waiter is woken
    with the message and the timer of the wait is gone. *)
Lemma inbound_resolves_wait_witness :
  (onInboundMessage (Message "c" "pong")
     (exec [Espera "c" (Some "m"); Respuesta "m" 4] init).1).2
  = [Woken 4 (Some (Message "c" "pong"))] ∧
  deadline 0
    (onInboundMessage (Message "c" "pong")
       (exec [Espera "c" (Some "m"); Respuesta "m" 4] init).1).1
  = ((onInboundMessage (Message "c" "pong")
        (exec [Espera "c" (Some "m"); Respuesta "m" 4] init).1).1, []).
Proof.
  pose proof (inbound_resolves_wait (Message "c" "pong")
                (exec [Espera "c" (Some "m"); Respuesta "m" 4] init).1)
    as H.
  change (esperas (exec [Espera "c" (Some "m"); Respuesta "m" 4] init).1
          !! from (Message "c" "pong")) with (Some "m") in H.
  destruct H as (_ & _ & H3 & _ & _ & H6 & _).
  split; [exact H3|]. exact (proj2 (H6 0 eq_refl)).
Defined.

(** *** Replies stay cached *)

Lemma respuestas_step (ev : event) s id :
  is_Some (respuestas s !! id) → is_Some (respuestas (step ev s).1 !! id).
Proof.
  intros Hid. destruct ev as [c o|m|t|id' w]; simpl.
  - unfold registerWait. destruct o as [x|]; [|done].
    by destruct (bool_decide _).
  - unfold onInboundMessage. destruct (esperas s !! from m) as [x|]; [|done].
    destruct (resolvers s !! x), (timeouts s !! x); simpl;
      apply lookup_insert_is_Some'; by right.
  - unfold deadline. destruct (timers s !! t) as [[c x]|]; [|done].
    by destruct (_ && _).
  - unfold respuesta. destruct (respuestas s !! id'); [done|].
    destruct (estaEsperando id' s); [|done].
    by destruct (resolvers s !! id').
Qed.

Lemma respuestas_exec (evs : list event) s id :
  is_Some (respuestas s !! id) → is_Some (respuestas (exec evs s).1 !! id).
Proof.
  revert s. induction evs as [|ev evs IH]; intros s Hid; [done|].
  rewrite correlator_exec_cons. simpl. by apply IH, respuestas_step.
Qed.

Lemma estaEsperando_false id s :
  estaEsperando id s = false ↔ ∀ c, esperas s !! c ≠ Some id.
Proof.
  unfold estaEsperando. rewrite bool_decide_eq_false. split.
  - intros Hn c Hc. apply Hn. by exists c, id.
  - intros Hn (c & x & Hc & ->). by apply (Hn c).
Qed.



(** *** Every identifier waited on has its list of waiters *)

Lemma sane_init : sane [] init.
Proof. split; intros *; simpl; by rewrite lookup_empty. Qed.

Lemma sane_weaken ids ids' s : sane ids s → ids ⊆ ids' → sane ids' s.
Proof.
  intros [H1 H2] Hsub. split; [|done]. intros c id Hc.
  destruct (H1 c id Hc). split; [done|]. by apply Hsub.
Qed.

(** Removing the one conversation that maps to [id], and the waiters of
    [id] with it. *)
Lemma sane_forget ids s c id rs ts tm n :
  sane ids s → esperas s !! c = Some id →
  sane ids (State (delete c (esperas s)) rs (delete id (resolvers s)) ts tm n).
Proof.
  intros [H1 H2] Hc. split; simpl.
  - intros c' id' Hc'. apply lookup_delete_Some in Hc' as [Hne Hc'].
    destruct (H1 c' id' Hc') as [Hr Hin]. split; [|done].
    rewrite lookup_delete_ne; [done|]. intros ->. by destruct Hne; eapply H2.
  - intros c1 c2 id' [_ Hc1]%lookup_delete_Some [_ Hc2]%lookup_delete_Some.
    by eapply H2.
Qed.

Lemma sane_step (ev : event) s ids :
  sane ids s → (∀ id, id ∈ issued [ev] → id ∉ ids) →
  sane (ids ++ issued [ev]) (step ev s).1.
Proof.
  intros Hs Hfresh. pose proof Hs as [H1 H2].
  destruct ev as [c o|m|t|id w]; simpl.
  - unfold registerWait. destruct o as [id|]; simpl;
      [|by rewrite app_nil_r].
    destruct (bool_decide (id = "")) eqn:Hid; simpl;
      [by rewrite app_nil_r|].
    assert (id ∉ ids) as Hnew.
    { apply Hfresh. simpl. rewrite Hid. by apply list_elem_of_singleton. }
    split; simpl.
    + intros c' id' Hc'. apply lookup_insert_Some in Hc' as [[<- <-]|[Hne Hc']].
      * rewrite lookup_insert_eq. split; [done|].
        apply elem_of_app. right. by apply list_elem_of_singleton.
      * destruct (H1 c' id' Hc') as [Hr Hin].
        split; [|apply elem_of_app; by left].
        rewrite lookup_insert_ne; [done|]. by intros ->.
    + intros c1 c2 id' Hc1 Hc2.
      apply lookup_insert_Some in Hc1 as [[<- <-]|[Hne1 Hc1]];
        apply lookup_insert_Some in Hc2 as [[<- Heq]|[Hne2 Hc2]]; try done.
      * pose proof (H1 _ _ Hc2) as [_ ?]. done.
      * subst id'. pose proof (H1 _ _ Hc1) as [_ ?]. done.
      * by eapply H2.
  - rewrite app_nil_r. unfold onInboundMessage.
    destruct (esperas s !! from m) as [id|] eqn:Hc; [|done].
    destruct (resolvers s !! id) as [ws|] eqn:Hws.
    + destruct (timeouts s !! id); simpl; by apply sane_forget.
    + destruct (H1 _ _ Hc) as [[? ?] _]. congruence.
  - rewrite app_nil_r. unfold deadline.
    destruct (timers s !! t) as [[c id]|]; [|done].
    destruct (bool_decide (esperas s !! c = Some id)) eqn:Hg; simpl; [|done].
    apply bool_decide_eq_true in Hg.
    destruct (negb _); [by apply sane_forget|done].
  - rewrite app_nil_r. unfold respuesta.
    destruct (respuestas s !! id); [done|].
    destruct (estaEsperando id s); [|done].
    destruct (resolvers s !! id) as [ws|] eqn:Hws; [|done].
    split; [|done]. simpl. intros c id' Hc.
    destruct (H1 c id' Hc) as [Hr Hin]. split; [|done].
    apply lookup_insert_is_Some'. by right.
Qed.

Lemma issued_cons ev evs : issued (ev :: evs) = issued [ev] ++ issued evs.
Proof. unfold issued. by rewrite <- omap_app. Qed.

Lemma sane_exec (evs : list event) :
  ∀ s ids,
    sane ids s → NoDup (issued evs) → (∀ id, id ∈ issued evs → id ∉ ids) →
    sane (ids ++ issued evs) (exec evs s).1.
Proof.
  induction evs as [|ev evs IH]; intros s ids Hs Hnd Hfresh.
  - simpl. by rewrite app_nil_r.
  - rewrite issued_cons in *. rewrite correlator_exec_cons. simpl.
    apply NoDup_app in Hnd as (Hnd1 & Hdis & Hnd2). rewrite app_assoc.
    apply IH; [|done|].
    + apply sane_step; [done|]. intros id Hid. apply Hfresh.
      apply elem_of_app. by left.
    + intros id Hid [Hin|Hin]%elem_of_app.
      * apply (Hfresh id); [apply elem_of_app; by right|done].
      * by apply (Hdis id).
Qed.



(** *** A wait overtaken by a later one on the same conversation *)

Lemma estaEsperando_true id c s :
  esperas s !! c = Some id → estaEsperando id s = true.
Proof. intros Hc. apply bool_decide_eq_true. by exists c, id. Qed.

(** C5, on the code.  Two waits are registered on one conversation, each
    with a waiter; the reply that follows wakes the waiter of the second
    and not the one of the first; and when the deadline of the first wait
    fires, its callback wakes nobody: the waiter of the first is still in
    its list, with no mapping, no reply and no timer left to release it. *)
Theorem superseded_wait_is_never_released (c m1 m2 : string) (w1 w2 : nat)
    (msg : message) :
  m1 ≠ "" → m2 ≠ "" → m1 ≠ m2 → from msg = c →
  let before :=
    exec [Espera c (Some m1); Respuesta m1 w1;
          Espera c (Some m2); Respuesta m2 w2; Inbound msg] init in
  before.2 = [Woken w2 (Some msg)] ∧
  timers before.1 !! 0 = Some (c, m1) ∧
  (deadline 0 before.1).2 = [] ∧
  resolvers (deadline 0 before.1).1 !! m1 = Some [w1] ∧
  esperas (deadline 0 before.1).1 = ∅ ∧
  timers (deadline 0 before.1).1 = ∅ ∧
  respuestas (deadline 0 before.1).1 !! m1 = None.
Proof.
  intros Hm1 Hm2 Hne Hfrom before. subst before.
  set (s1 := State (<[c:=m1]> ∅) ∅ (<[m1:=[]]> ∅) (<[m1:=0]> ∅)
                   (<[0:=(c, m1)]> ∅) 1).
  set (s2 := State (esperas s1) ∅ (<[m1:=[w1]]> (resolvers s1))
                   (timeouts s1) (timers s1) 1).
  set (s3 := State (<[c:=m2]> (esperas s2)) ∅ (<[m2:=[]]> (resolvers s2))
                   (<[m2:=1]> (timeouts s2)) (<[1:=(c, m2)]> (timers s2)) 2).
  set (s4 := State (esperas s3) ∅ (<[m2:=[w2]]> (resolvers s3))
                   (timeouts s3) (timers s3) 2).
  set (s5 := State (delete c (esperas s4)) (<[m2:=msg]> ∅)
                   (delete m2 (resolvers s4)) (delete m2 (timeouts s4))
                   (delete 1 (timers s4)) 2).
  assert (step (Espera c (Some m1)) init = (s1, [])) as E1.
  { simpl. unfold registerWait. by rewrite bool_decide_eq_false_2. }
  assert (step (Respuesta m1 w1) s1 = (s2, [])) as E2.
  { simpl. unfold respuesta. simpl. rewrite lookup_empty.
    rewrite (estaEsperando_true m1 c) by apply lookup_insert_eq.
    by rewrite lookup_insert_eq. }
  assert (step (Espera c (Some m2)) s2 = (s3, [])) as E3.
  { simpl. unfold registerWait. by rewrite bool_decide_eq_false_2. }
  assert (step (Respuesta m2 w2) s3 = (s4, [])) as E4.
  { simpl. unfold respuesta. simpl. rewrite lookup_empty.
    rewrite (estaEsperando_true m2 c) by apply lookup_insert_eq.
    by rewrite lookup_insert_eq. }
  assert (step (Inbound msg) s4 = (s5, [Woken w2 (Some msg)])) as E5.
  { simpl. unfold onInboundMessage. rewrite Hfrom. simpl.
    by rewrite !lookup_insert_eq. }
  rewrite correlator_exec_cons, E1. cbn [fst snd]. rewrite correlator_exec_cons, E2. cbn [fst snd].
  rewrite correlator_exec_cons, E3. cbn [fst snd]. rewrite correlator_exec_cons, E4. cbn [fst snd].
  rewrite correlator_exec_cons, E5. cbn [fst snd exec app].
  assert (timers s5 !! 0 = Some (c, m1)) as H0.
  { simpl. rewrite lookup_delete_ne by done.
    rewrite lookup_insert_ne by done. apply lookup_insert_eq. }
  assert (esperas s5 = ∅) as Hesp.
  { simpl. by rewrite insert_insert_eq, delete_insert_eq, delete_empty. }
  split; [done|]. split; [done|].
  unfold deadline. rewrite H0, Hesp, lookup_empty.
  rewrite bool_decide_eq_false_2 by done. cbn [andb fst snd].
  split_and!; [done| |done| |].
  - simpl. rewrite lookup_delete_ne by done.
    rewrite !lookup_insert_ne by done. apply lookup_insert_eq.
  - simpl. apply map_eq. intros t. rewrite lookup_empty.
    destruct (decide (t = 0)) as [->|]; [apply lookup_delete_eq|].
    rewrite lookup_delete_ne by done.
    destruct (decide (t = 1)) as [->|]; [apply lookup_delete_eq|].
    rewrite lookup_delete_ne by done. rewrite !lookup_insert_ne by done.
    apply lookup_empty.
  - simpl. rewrite lookup_insert_ne by done. apply lookup_empty.
Qed.

(** The failing input with names put on it. *)
Lemma superseded_wait_is_never_released_witness :
  "m1" ≠ "" ∧ "m2" ≠ "" ∧ "m1" ≠ "m2" ∧
  (deadline 0
     (exec [Espera "c" (Some "m1"); Respuesta "m1" 1;
            Espera "c" (Some "m2"); Respuesta "m2" 2;
            Inbound (Message "c" "pong")] init).1).2 = [] ∧
  resolvers
    (deadline 0
       (exec [Espera "c" (Some "m1"); Respuesta "m1" 1;
              Espera "c" (Some "m2"); Respuesta "m2" 2;
              Inbound (Message "c" "pong")] init).1).1 !! "m1"
  = Some [1].
Proof.
  assert ("m1" ≠ "") as H1 by discriminate.
  assert ("m2" ≠ "") as H2 by discriminate.
  assert ("m1" ≠ "m2") as H3 by discriminate.
  pose proof (superseded_wait_is_never_released "c" "m1" "m2" 1 2
                (Message "c" "pong") H1 H2 H3 eq_refl)
    as (_ & _ & H6 & H7 & _).
  split_and!; [exact H1|exact H2|exact H3|exact H6|exact H7].
Defined.

(** *** The deadline of a wait nobody replied to *)

Lemma sane_unique ids s c c' id :
  sane ids s → esperas s !! c = Some id → esperas s !! c' = Some id → c = c'.
Proof. intros [_ H]. apply H. Qed.


(** *** From the wait to the reply *)

(** X14. The round trip of a wait.  In any state with no reply cached for the
    identifier: once /esperar has registered the wait for a conversation, a
    GET /respuesta for the identifier is suspended; the next message from
    that conversation wakes it with that message; a lookup made afterwards
    is answered at once with the same message; and the deadline timer of
    the wait is cleared. *)
Theorem wait_then_reply_round_trip (s : state) (c id : string) (w w' : nat)
    (m : message) :
  id ≠ "" → respuestas s !! id = None → from m = c →
  let r := exec [Espera c (Some id); Respuesta id w; Inbound m;
                 Respuesta id w'] s in
  r.2 = [Woken w (Some m); Replied w' m] ∧
  esperas r.1 !! c = None ∧ respuestas r.1 !! id = Some m ∧
  resolvers r.1 !! id = None ∧ timeouts r.1 !! id = None ∧
  timers r.1 !! next_timer s = None.
Proof.
  intros Hid Hno <- r. subst r.
  set (s1 := registerWait (from m) (Some id) s).
  assert (esperas s1 !! from m = Some id ∧ resolvers s1 !! id = Some [] ∧
          respuestas s1 = respuestas s ∧
          timeouts s1 !! id = Some (next_timer s)) as (E1 & E2 & E3 & E4).
  { subst s1. unfold registerWait. rewrite bool_decide_eq_false_2 by done.
    simpl. by rewrite !lookup_insert_eq. }
  set (s2 := State (esperas s1) (respuestas s1) (<[id := [w]]> (resolvers s1))
                   (timeouts s1) (timers s1) (next_timer s1)).
  assert (respuesta id w s1 = (s2, [])) as R2.
  { unfold respuesta.
    rewrite E3, Hno, (estaEsperando_true id (from m)), E2 by done.
    subst s2. by rewrite E3. }
  set (s3 := State (delete (from m) (esperas s1))
                   (<[id := m]> (respuestas s1))
                   (delete id (<[id := [w]]> (resolvers s1)))
                   (delete id (timeouts s1))
                   (delete (next_timer s) (timers s1)) (next_timer s1)).
  assert (onInboundMessage m s2 = (s3, [Woken w (Some m)])) as R3.
  { unfold onInboundMessage. subst s2. simpl.
    by rewrite E1, lookup_insert_eq, E4. }
  assert (respuesta id w' s3 = (s3, [Replied w' m])) as R4.
  { unfold respuesta. subst s3. simpl. by rewrite lookup_insert_eq. }
  rewrite correlator_exec_cons.
  change (step (Espera (from m) (Some id)) s) with (s1, @nil output).
  cbn [fst snd app]. rewrite correlator_exec_cons.
  change (step (Respuesta id w) s1) with (respuesta id w s1).
  rewrite R2. cbn [fst snd app]. rewrite correlator_exec_cons.
  change (step (Inbound m) s2) with (onInboundMessage m s2).
  rewrite R3. cbn [fst snd app]. rewrite correlator_exec_cons.
  change (step (Respuesta id w') s3) with (respuesta id w' s3).
  rewrite R4. cbn [fst snd app exec]. subst s3. cbn [esperas respuestas
    resolvers timeouts timers].
  split_and!; try done; try apply lookup_delete_eq.
  apply lookup_insert_eq.
Qed.

(** *** No request is answered twice *)

Lemma waiter_of_wake r ws : waiter_of <$> wake r ws = default [] ws.
Proof.
  unfold wake. rewrite <- list_fmap_compose.
  induction (default [] ws) as [|w l IH]; [done|]. simpl. by f_equal.
Qed.

Lemma tidy_init : tidy [] [] init.
Proof.
  split_and!.
  - intros id ws Hws. simpl in Hws. by rewrite lookup_empty in Hws.
  - intros id id' ws ws' w Hws. simpl in Hws. by rewrite lookup_empty in Hws.
  - constructor.
  - intros w Hw. by apply not_elem_of_nil in Hw.
Qed.

(** The waiters of one identifier are woken and its list is removed. *)
Lemma tidy_wake seen pre s id ws rs ts tm e p :
  tidy seen pre s → resolvers s !! id = Some ws →
  tidy seen (pre ++ ws) (State e p (delete id (resolvers s)) rs ts tm).
Proof.
  intros (Ha & Hb & Hnd & Hsub) Hws. destruct (Ha _ _ Hws) as [Hndw Hw].
  split_and!; simpl.
  - intros id' ws' Hws'. apply lookup_delete_Some in Hws' as [Hne Hws'].
    destruct (Ha _ _ Hws') as [Hnd' Hw']. split; [done|].
    intros w Hin. destruct (Hw' _ Hin) as [Hs Hp]. split; [done|].
    intros [Hp'|Hp']%elem_of_app; [done|].
    by destruct Hne; apply (Hb _ _ _ _ w Hws Hws').
  - intros id1 id2 ws1 ws2 w H1 H2.
    apply lookup_delete_Some in H1 as [_ H1].
    apply lookup_delete_Some in H2 as [_ H2]. by apply Hb.
  - apply NoDup_app. split_and!; [done| |done].
    intros w Hp Hin. by destruct (Hw _ Hin).
  - intros w [Hp|Hin]%elem_of_app; [by apply Hsub|]. by destruct (Hw _ Hin).
Qed.

(** A change that leaves [resolvers] alone. *)
Lemma tidy_other seen pre s e p rs ts tm :
  tidy seen pre s → tidy seen pre (State e p (resolvers s) rs ts tm).
Proof. done. Qed.

Lemma tidy_step (ev : event) seen pre s :
  tidy seen pre s →
  (∀ w, w ∈ asked [ev] → w ∉ seen) →
  tidy (seen ++ asked [ev]) (pre ++ (waiter_of <$> (step ev s).2))
       (step ev s).1.
Proof.
  intros Ht Hfresh. pose proof Ht as (Ha & Hb & Hnd & Hsub).
  destruct ev as [c oid|m|t|id w]; simpl; rewrite ?app_nil_r.
  - unfold registerWait. destruct oid as [id|]; [|done].
    destruct (bool_decide (id = "")); [done|].
    split_and!; simpl; try done.
    + intros id' ws Hws. destruct (decide (id' = id)) as [->|Hne].
      * rewrite lookup_insert_eq in Hws. injection Hws as <-.
        split; [constructor|]. intros w Hin. by apply not_elem_of_nil in Hin.
      * rewrite lookup_insert_ne in Hws by done. by eapply Ha.
    + intros id1 id2 ws1 ws2 w H1 H2 Hin1 Hin2.
      destruct (decide (id1 = id)) as [->|Hne1].
      * rewrite lookup_insert_eq in H1. injection H1 as <-.
        by apply not_elem_of_nil in Hin1.
      * destruct (decide (id2 = id)) as [->|Hne2].
        -- rewrite lookup_insert_eq in H2. injection H2 as <-.
           by apply not_elem_of_nil in Hin2.
        -- rewrite lookup_insert_ne in H1, H2 by done. by eapply Hb.
  - unfold onInboundMessage.
    destruct (esperas s !! from m) as [id|]; [|by rewrite app_nil_r].
    destruct (resolvers s !! id) as [ws|] eqn:Hws;
      destruct (timeouts s !! id) as [t|]; simpl;
      rewrite ?waiter_of_wake, ?app_nil_r; simpl;
      by first [eapply tidy_wake|apply tidy_other].
  - unfold deadline.
    destruct (timers s !! t) as [[c id]|]; [|by rewrite app_nil_r].
    destruct (bool_decide _ && _); simpl.
    + rewrite waiter_of_wake.
      destruct (resolvers s !! id) as [ws|] eqn:Hws; simpl.
      * by eapply tidy_wake.
      * rewrite app_nil_r, (delete_id (resolvers s) id) by done.
        by apply tidy_other.
    + rewrite app_nil_r. by apply tidy_other.
  - assert (w ∉ seen) as Hw by (apply Hfresh; simpl; by left).
    assert (w ∉ pre) as Hwp by (intros Hin; by apply Hw, Hsub).
    assert (tidy (seen ++ [w]) (pre ++ [w]) s) as Hnow.
    { split_and!.
      - intros id' ws Hws. destruct (Ha _ _ Hws) as [Hndw Hin].
        split; [done|]. intros w' Hw'. destruct (Hin _ Hw') as [Hs Hp].
        split; [apply elem_of_app; by left|].
        intros [Hp'|Hp']%elem_of_app; [done|].
        apply list_elem_of_singleton in Hp'. by subst w'.
      - done.
      - apply NoDup_app. split_and!; [done| |apply NoDup_singleton].
        intros w' Hp Hin. apply list_elem_of_singleton in Hin. by subst w'.
      - intros w' [Hp|Hp]%elem_of_app; apply elem_of_app;
          [left; by apply Hsub|by right]. }
    unfold respuesta. destruct (respuestas s !! id) as [m|]; [done|].
    destruct (estaEsperando id s); [|done].
    destruct (resolvers s !! id) as [ws|] eqn:Hws; [|done].
    simpl. rewrite app_nil_r. destruct (Ha _ _ Hws) as [Hndw Hin].
    split_and!; simpl; try done.
    + intros id' ws' Hws'. destruct (decide (id' = id)) as [->|Hne].
      * rewrite lookup_insert_eq in Hws'. injection Hws' as <-.
        split.
        -- apply NoDup_app. split_and!; [done| |apply NoDup_singleton].
           intros w' Hw' Hs. apply list_elem_of_singleton in Hs. subst w'.
           by destruct (Hin _ Hw').
        -- intros w' [Hw'|Hw']%elem_of_app.
           ++ destruct (Hin _ Hw'). split; [apply elem_of_app; by left|done].
           ++ apply list_elem_of_singleton in Hw'. subst w'.
              split; [apply elem_of_app; right; by left|done].
      * rewrite lookup_insert_ne in Hws' by done.
        destruct (Ha _ _ Hws') as [Hnd' Hin']. split; [done|].
        intros w' Hw'. destruct (Hin' _ Hw').
        split; [apply elem_of_app; by left|done].
    + assert (∀ id' ws' w', id' ≠ id → resolvers s !! id' = Some ws' →
                w' ∈ ws ++ [w] → w' ∈ ws' → False) as Hcross.
      { intros id' ws' w' Hne Hws' [Hw'|Hw']%elem_of_app Hin'.
        - by apply Hne, (Hb _ _ _ _ w' Hws' Hws).
        - apply list_elem_of_singleton in Hw'. subst w'.
          by destruct (Ha _ _ Hws') as [_ Hx]; destruct (Hx _ Hin'). }
      intros id1 id2 ws1 ws2 w' H1 H2 Hin1 Hin2.
      destruct (decide (id1 = id)) as [->|Hne1];
        destruct (decide (id2 = id)) as [->|Hne2]; [done| | |].
      * rewrite lookup_insert_eq in H1. injection H1 as <-.
        rewrite lookup_insert_ne in H2 by done.
        by destruct (Hcross _ _ _ Hne2 H2 Hin1 Hin2).
      * rewrite lookup_insert_eq in H2. injection H2 as <-.
        rewrite lookup_insert_ne in H1 by done.
        by destruct (Hcross _ _ _ Hne1 H1 Hin2 Hin1).
      * rewrite lookup_insert_ne in H1, H2 by done. by eapply Hb.
    + intros w' Hp. apply elem_of_app. left. by apply Hsub.
Qed.

Lemma asked_cons ev evs : asked (ev :: evs) = asked [ev] ++ asked evs.
Proof. unfold asked. simpl. by destruct ev. Qed.

Lemma tidy_exec (evs : list event) seen pre s :
  tidy seen pre s → NoDup (seen ++ asked evs) →
  tidy (seen ++ asked evs) (pre ++ (waiter_of <$> (exec evs s).2))
       (exec evs s).1.
Proof.
  revert seen pre s. induction evs as [|ev evs IH]; intros seen pre s Ht Hnd.
  { simpl. by rewrite !app_nil_r. }
  rewrite correlator_exec_cons, asked_cons in *. cbn [fst snd].
  rewrite fmap_app, !app_assoc. rewrite app_assoc in Hnd.
  apply IH; [|done].
  apply tidy_step; [done|].
  intros w Hw Hs. apply NoDup_app in Hnd as (Hnd & _ & _).
  apply NoDup_app in Hnd as (_ & Hnd & _). by apply (Hnd w).
Qed.

(** X15. No request is answered twice.  Over any run of registrations, inbound
    messages, deadlines and GET /respuesta requests, each request is
    answered at most once (at once, or woken later by a reply or by the
    deadline), only requests that were made are answered, and the waiters
    still held are requests not answered yet. *)
Theorem request_answered_at_most_once (evs : list event) :
  NoDup (asked evs) →
  let r := exec evs init in
  NoDup (waiter_of <$> r.2) ∧
  (∀ w, w ∈ waiter_of <$> r.2 → w ∈ asked evs) ∧
  (∀ id ws w, resolvers r.1 !! id = Some ws → w ∈ ws →
              w ∈ asked evs ∧ w ∉ waiter_of <$> r.2).
Proof.
  intros Hnd r. subst r.
  destruct (tidy_exec evs [] [] init tidy_init Hnd) as (Ha & _ & Hnd' & Hsub).
  simpl in *. split_and!; [done|done|].
  intros id ws w Hws Hin. by destruct (Ha _ _ Hws) as [_ Hx]; apply Hx.
Qed.


Lemma wait_then_reply_round_trip_witness :
  (exec [Espera "c" (Some "m"); Respuesta "m" 1; Inbound (Message "c" "ok");
         Respuesta "m" 2] init).2
  = [Woken 1 (Some (Message "c" "ok")); Replied 2 (Message "c" "ok")].
Proof.
  refine (proj1 (wait_then_reply_round_trip init "c" "m" 1 2
                   (Message "c" "ok") _ eq_refl eq_refl)).
  discriminate.
Defined.

Lemma request_answered_at_most_once_witness :
  NoDup (waiter_of
           <$> (exec [Espera "c" (Some "m"); Respuesta "m" 1;
                      Respuesta "m" 2; Inbound (Message "c" "ok");
                      Respuesta "m" 3; Respuesta "x" 4] init).2).
Proof.
  refine (proj1 (request_answered_at_most_once
                   [Espera "c" (Some "m"); Respuesta "m" 1; Respuesta "m" 2;
                    Inbound (Message "c" "ok"); Respuesta "m" 3;
                    Respuesta "x" 4] _)).
  apply (bool_decide_unpack _). by vm_compute.
Defined.

End CorrelatorFacts.

Module HttpFacts.
Import Http.

Section Facts.
Context {V : Type}.
Variable sessionIds : list string.
Variable P : Session.provider.

Local Abbreviation serve := (serve (V:=V) sessionIds P).

Lemma length_is_13_false n :
  String.length n ≠ 13 → length_is_13 (Some n) = false.
Proof. intros Hn. simpl. by apply bool_decide_eq_false. Qed.

Lemma falsy_some n : n ≠ "" → falsy (Some n) = false.
Proof. intros Hn. simpl. by apply bool_decide_eq_false. Qed.


End Facts.



(** *** The upload of /enviar-archivo *)

Lemma safeUnlinkSync_removes p files :
  p ≠ "" →
  (p ∉ safeUnlinkSync true (Some p) files) ∧
  ∀ p', p' ≠ p → (p' ∈ safeUnlinkSync true (Some p) files ↔ p' ∈ files).
Proof.
  intros Hp. unfold safeUnlinkSync. simpl.
  rewrite bool_decide_eq_false_2 by done.
  destruct (bool_decide (p ∈ files)) eqn:E.
  - split.
    + intros [_ Hn]%elem_of_difference. apply Hn. by apply elem_of_singleton.
    + intros p' Hne. rewrite elem_of_difference, elem_of_singleton. tauto.
  - apply bool_decide_eq_false in E. by split.
Qed.

(** X16. The uploaded file never outlives its request.  Whichever way the
    handler of /enviar-archivo ends (a field missing, a bad number, an
    unreadable file, the send done or failed), the temporary file of the
    upload is gone afterwards and no other file is touched; the answer is
    the one the validation and the send decide; and a failing [unlink]
    is swallowed: it leaves the files as they were and does not change the
    answer. *)
Theorem upload_never_outlives_request {V} (req : request) (sent : outcome V)
    (files : gset string) (p : string) :
  archivo req = Some p → p ≠ "" →
  let r := enviar_archivo_handler true req sent files in
  (p ∉ r.1) ∧
  (∀ p', p' ≠ p → (p' ∈ r.1 ↔ p' ∈ files)) ∧
  r.2 = match enviar_archivo req with
        | Respond st e => Status st e
        | Forward _ _ =>
            match sent with
            | Success v => Json v
            | Failure _ => Status 500 "Falló el envío del archivo"
            end
        end ∧
  enviar_archivo_handler false req sent files = (files, r.2).
Proof.
  intros Ha Hp r. subst r.
  destruct (safeUnlinkSync_removes p files Hp) as [H1 H2].
  assert (safeUnlinkSync false (Some p) files = files) as H3.
  { unfold safeUnlinkSync. simpl. rewrite bool_decide_eq_false_2 by done.
    by destruct (bool_decide _). }
  unfold enviar_archivo_handler, enviar_archivo. rewrite Ha, H3.
  destruct (falsy (numero req) || falsy (Some p)); [done|].
  destruct (negb (length_is_13 (numero req))); [done|].
  destruct (negb (legible req)); [done|].
  by destruct sent.
Qed.

(** *** The wait that /esperar registers *)

Lemma idMensaje_truthy message k : idMensaje message = Some k → k ≠ "".
Proof.
  unfold idMensaje. destruct (message_id message) as [[a b]|]; [|done].
  simpl. destruct a as [a|]; simpl.
  - destruct (bool_decide (a = "")) eqn:Ea; simpl.
    + destruct b as [b|]; simpl; [|done].
      destruct (bool_decide (b = "")) eqn:Eb; simpl; [done|].
      intros [= <-]. by apply bool_decide_eq_false in Eb.
    + intros [= <-]. by apply bool_decide_eq_false in Ea.
  - destruct b as [b|]; simpl; [|done].
    destruct (bool_decide (b = "")) eqn:Eb; simpl; [done|].
    intros [= <-]. by apply bool_decide_eq_false in Eb.
Qed.

(** X17. The identifier /esperar hands out is the key of the wait.  For a
    request that passes the validation and a send that succeeds with a
    usable message id, the handler answers with that id, maps the
    conversation [numero@c.us] to it with an empty list of waiters, and a
    GET /respuesta for the id followed by a message from that conversation
    is woken with the message.  When the provider gives no usable id, or
    the send fails, nothing is registered; a failed send is answered 500. *)
Theorem esperar_hands_out_the_key (req : request) (s : Correlator.state)
    (n : string) :
  numero req = Some n → String.length n = 13 → falsy (texto req) = false →
  (∀ message k,
     idMensaje message = Some k →
     let r := esperar_handler req (Success message) s in
     r.2 = Json (Some k) ∧
     Correlator.esperas r.1 !! (n +:+ "@c.us") = Some k ∧
     Correlator.resolvers r.1 !! k = Some [] ∧
     (Correlator.respuestas s !! k = None →
      ∀ w m, Correlator.from m = n +:+ "@c.us" →
             (Correlator.exec [Correlator.Respuesta k w; Correlator.Inbound m]
                r.1).2
             = [Correlator.Woken w (Some m)])) ∧
  (∀ message, idMensaje message = None →
              esperar_handler req (Success message) s = (s, Json None)) ∧
  (∀ e, esperar_handler req (Failure e) s
        = (s, Status 500 "Falló el envío del mensaje")).
Proof.
  intros Hn Hlen Htx.
  assert (∀ sent, esperar_handler req sent s
                  = match sent with
                    | Success message =>
                        (Correlator.registerWait (n +:+ "@c.us")
                           (idMensaje message) s,
                         Json (idMensaje message))
                    | Failure _ => (s, Status 500 "Falló el envío del mensaje")
                    end) as Hh.
  { intros sent. unfold esperar_handler. rewrite Hn, Htx. simpl.
    rewrite bool_decide_eq_false_2
      by (intros ->; simpl in Hlen; lia).
    rewrite bool_decide_eq_true_2 by done. done. }
  split_and!.
  - intros message k Hk r. subst r. rewrite Hh, Hk.
    pose proof (idMensaje_truthy _ _ Hk) as Hne.
    set (s1 := Correlator.registerWait (n +:+ "@c.us") (Some k) s).
    assert (Correlator.esperas s1 !! (n +:+ "@c.us") = Some k ∧
            Correlator.resolvers s1 !! k = Some [] ∧
            Correlator.respuestas s1 = Correlator.respuestas s ∧
            Correlator.timeouts s1 !! k = Some (Correlator.next_timer s))
      as (E1 & E2 & E3 & E4).
    { subst s1. unfold Correlator.registerWait.
      rewrite bool_decide_eq_false_2 by done.
      simpl. by rewrite !lookup_insert_eq. }
    cbn [fst snd]. split_and!; [done|done|done|].
    intros Hno w m Hm.
    assert (Correlator.respuesta k w s1
            = (Correlator.State (Correlator.esperas s1)
                 (Correlator.respuestas s1)
                 (<[k := [w]]> (Correlator.resolvers s1))
                 (Correlator.timeouts s1) (Correlator.timers s1)
                 (Correlator.next_timer s1), [])) as R2.
    { unfold Correlator.respuesta.
      rewrite E3, Hno,
        (CorrelatorFacts.estaEsperando_true k (n +:+ "@c.us")), E2 by done.
      done. }
    rewrite CorrelatorFacts.correlator_exec_cons.
    change (Correlator.step (Correlator.Respuesta k w) s1)
      with (Correlator.respuesta k w s1).
    rewrite R2. cbn [fst snd app].
    rewrite CorrelatorFacts.correlator_exec_cons.
    cbn [Correlator.step Correlator.exec].
    unfold Correlator.onInboundMessage. cbn [Correlator.esperas
      Correlator.resolvers Correlator.timeouts].
    by rewrite Hm, E1, lookup_insert_eq, E4.
  - intros message Hk. by rewrite Hh, Hk.
  - intros e. by rewrite Hh.
Qed.

(** *** The message /estado reports *)

Lemma find_first {A} (f : A → bool) (l : list A) (x : A) :
  List.find f l = Some x →
  f x = true ∧ ∃ pre post, l = pre ++ x :: post ∧ Forall (λ y, f y = false) pre.
Proof.
  induction l as [|y l IH]; [done|]. simpl.
  destruct (f y) eqn:Ey.
  - intros [= <-]. split; [done|]. by exists [], l.
  - intros Hx. destruct (IH Hx) as (Hf & pre & post & -> & Hpre).
    split; [done|]. exists (y :: pre), post. split; [done|].
    by constructor.
Qed.

Lemma find_none_iff {A} (f : A → bool) (l : list A) :
  List.find f l = None ↔ Forall (λ y, f y = false) l.
Proof.
  induction l as [|y l IH]; simpl; [by split; [constructor|]|].
  destruct (f y) eqn:Ey.
  - split; [done|]. intros H. apply Forall_cons in H as [H _]. congruence.
  - rewrite IH. split; [by constructor|]. by intros [_ H]%Forall_cons.
Qed.

(** X18. /estado reports the message that was asked for.  For a request that
    passes the validation: when the provider's list holds a message with
    the identifier asked for, the answer is the first such message of the
    list, carrying that identifier; when it holds none the answer is 404
    'Mensaje no encontrado'; and when the provider fails it is 500. *)
Theorem estado_reports_the_message (n k : string)
    (messages : list fetched) :
  String.length n = 13 → k ≠ "" →
  (∀ m, estado (Some k) (Some n) (Success messages) = Json m ↔
        ∃ pre post, messages = pre ++ m :: post ∧ fetched_id m = k ∧
                    Forall (λ y, fetched_id y ≠ k) pre) ∧
  (estado (Some k) (Some n) (Success messages)
   = Status 404 "Mensaje no encontrado" ↔
   Forall (λ y, fetched_id y ≠ k) messages) ∧
  (∀ e, estado (Some k) (Some n) (Failure e)
        = Status 500 "Error al consultar estado").
Proof.
  intros Hlen Hk.
  assert (∀ fetch, estado (Some k) (Some n) fetch
                   = match fetch with
                     | Success messages =>
                         match List.find
                                 (λ m, bool_decide (fetched_id m = k))
                                 messages with
                         | Some message => Json message
                         | None => Status 404 "Mensaje no encontrado"
                         end
                     | Failure _ => Status 500 "Error al consultar estado"
                     end) as He.
  { intros fetch. unfold estado. simpl.
    rewrite (bool_decide_eq_false_2 (n = ""))
      by (intros ->; simpl in Hlen; lia).
    rewrite (bool_decide_eq_false_2 (k = "")) by done.
    by rewrite (bool_decide_eq_true_2 (String.length n = 13)) by done. }
  assert (∀ l : list fetched,
            Forall (λ y, bool_decide (fetched_id y = k) = false) l
            ↔ Forall (λ y, fetched_id y ≠ k) l) as Hall.
  { intros l. apply Forall_iff. intros y. apply bool_decide_eq_false. }
  split_and!.
  - intros m. rewrite He. split.
    + destruct (List.find _ messages) as [m'|] eqn:Ef; [|done].
      intros [= <-]. apply find_first in Ef as (Hf & pre & post & -> & Hpre).
      exists pre, post. split; [done|].
      split; [by apply bool_decide_eq_true in Hf|by apply Hall].
    + intros (pre & post & -> & Hm & Hpre).
      apply Hall in Hpre.
      assert (List.find (λ m0, bool_decide (fetched_id m0 = k))
                (pre ++ m :: post) = Some m) as ->; [|done].
      induction Hpre as [|y pre Hy Hpre IH]; simpl.
      * by rewrite bool_decide_eq_true_2.
      * by rewrite Hy.
  - rewrite He, <- Hall, <- find_none_iff.
    by destruct (List.find _ messages).
  - intros e. by rewrite He.
Qed.

(** An upload rejected for its number: the temporary file is removed all
    the same. *)
Lemma upload_never_outlives_request_witness :
  "uploads/a1" ∉
    (enviar_archivo_handler (V:=nat) true
       (Request (Some "12") None None None (Some "uploads/a1") true)
       (Success 0) {["uploads/a1"; "uploads/b2"]}).1.
Proof.
  refine (proj1 (upload_never_outlives_request (V:=nat)
                   (Request (Some "12") None None None (Some "uploads/a1")
                      true)
                   (Success 0) {["uploads/a1"; "uploads/b2"]} "uploads/a1"
                   eq_refl _)).
  discriminate.
Defined.

Lemma esperar_hands_out_the_key_witness :
  (esperar_handler
     (Request (Some "5491122334455") (Some "hola") None None None true)
     (Success (SentMessage (Some (MsgId None (Some "3EB0")))))
     Correlator.init).2
  = Json (Some "3EB0").
Proof.
  refine (proj1 (proj1 (esperar_hands_out_the_key
                          (Request (Some "5491122334455") (Some "hola") None
                             None None true)
                          Correlator.init "5491122334455" eq_refl eq_refl
                          eq_refl)
                   (SentMessage (Some (MsgId None (Some "3EB0")))) "3EB0"
                   eq_refl)).
Defined.

Lemma estado_reports_the_message_witness :
  estado (Some "B") (Some "5491122334455")
    (Success [Fetched "A" 1; Fetched "B" 2; Fetched "B" 3])
  = Json (Fetched "B" 2).
Proof.
  refine (proj2 (proj1 (estado_reports_the_message "5491122334455" "B"
                          [Fetched "A" 1; Fetched "B" 2; Fetched "B" 3]
                          eq_refl _) (Fetched "B" 2)) _).
  - discriminate.
  - exists [Fetched "A" 1], [Fetched "B" 3].
    split; [reflexivity|]. split; [reflexivity|].
    constructor; [discriminate|constructor].
Defined.

End HttpFacts.
